(** * SuccessCondition (src/util/success_condition.h) and connect_to_host

    A shallow embedding of ouinet's [SuccessCondition]: the race coordinator
    that waits until one of a set of coroutines reports success or all of
    them have failed.

    The C++ objects are shared by [std::shared_ptr]; several [Lock]s, the
    coordinator and the suspended callers of [wait_for_success] alias the
    same [WaitState].  The embedding therefore keeps one heap of wait states
    and lets every owner hold an index ([ref]) into it.  The code runs on a
    single-threaded cooperative scheduler, so an execution is a sequence of
    indivisible operations ([op]); the only suspension point of the file,
    [condition.wait(yield)], splits [wait_for_success] in two halves. *)

From Stdlib Require Import String ZArith Lia Bool List.
From stdpp Require Import base option list.

(** ** Data model *)

(** Address of a heap-allocated [WaitState] (what a non-null
    [std::shared_ptr<WaitState>] points to). *)
Abbreviation ref := nat (only parsing).

(** Identifier of a coroutine that called [wait_for_success]. *)
Abbreviation task_id := nat (only parsing).

Module ConditionVariable.

(** Modelled from the spec: [ConditionVariable] is declared in
    condition_variable.h, which is not among the sources.  The spec (its
    WaitSlot) describes it as a queue of pending wake requests and an
    "already fired" flag: [wait] suspends the caller unless [notify] has
    already been called since the slot's creation, and only the first
    [notify] has an effect. *)
Record t := mk { fired : bool; pending : list task_id }.

Definition create : t := mk false [].

(** [notify()]: the first call wakes every pending waiter and marks the
    slot as fired; later calls are no-ops. *)
Definition notify (cv : t) : t :=
  if fired cv then cv else mk true [].

(** [wait(yield)] called by task [tid]: the second component tells whether
    the caller has been suspended. *)
Definition wait (tid : task_id) (cv : t) : t * bool :=
  if fired cv then (cv, false) else (mk false (pending cv ++ [tid]), true).

End ConditionVariable.

(** [struct WaitState].  [remaining_locks] is a C++ [int]; the counter never
    leaves the range of the number of live [Lock] objects (see
    [wf_remaining]), so it is modelled as an unbounded integer. *)
Record WaitState := mkWaitState {
  condition : ConditionVariable.t;
  remaining_locks : Z;
  success : bool
}.

(** [WaitState::WaitState(ios)] *)
Definition WaitState_new : WaitState :=
  mkWaitState ConditionVariable.create 0%Z false.

(** [WaitState::blocked()] *)
Definition blocked (ws : WaitState) : bool :=
  (0 <? remaining_locks ws)%Z && negb (success ws).

(** A [Lock] object is its only field [_wait_state]: a possibly null shared
    pointer. *)
Abbreviation Lock := (option ref) (only parsing).

(** The frame of a coroutine inside [wait_for_success]: the local variable
    [wait_state] and where the call stands. *)
Inductive Status :=
| Suspended
| Returned (result : bool).

Record Task := mkTask { wait_state : ref; status : Status }.

(** Everything the operations of the file act on: the wait states on the
    heap, the coordinator's own [_wait_state], the [Lock] objects of the
    program (by index), and the calls of [wait_for_success] (by index). *)
Record World := mkWorld {
  heap : list WaitState;
  sc_wait_state : option ref;
  locks : list Lock;
  tasks : list Task
}.

(** A just-constructed [SuccessCondition]: [_wait_state] is null. *)
Definition init : World := mkWorld [] None [] [].

Definition set_heap (h : list WaitState) (w : World) : World :=
  mkWorld h (sc_wait_state w) (locks w) (tasks w).
Definition set_sc (s : option ref) (w : World) : World :=
  mkWorld (heap w) s (locks w) (tasks w).
Definition set_locks (ls : list Lock) (w : World) : World :=
  mkWorld (heap w) (sc_wait_state w) ls (tasks w).
Definition set_tasks (ts : list Task) (w : World) : World :=
  mkWorld (heap w) (sc_wait_state w) (locks w) ts.

(** ** Operations of [SuccessCondition::Lock] *)

(** The body of [release] once [_wait_state] is known to be non-null:
    decrement, record a success, notify when no longer blocked. *)
Definition release_state (succ : bool) (ws : WaitState) : WaitState :=
  let ws1 := mkWaitState (condition ws) (remaining_locks ws - 1)%Z (success ws) in
  let ws2 := if succ
             then mkWaitState (condition ws1) (remaining_locks ws1) true
             else ws1 in
  if blocked ws2 then ws2
  else mkWaitState (ConditionVariable.notify (condition ws2))
                   (remaining_locks ws2) (success ws2).

(** [Lock::release(bool success)] on the lock object number [l].  [None]
    only when the program has no such object. *)
Definition Lock_release (l : nat) (succ : bool) (w : World) : option World :=
  match locks w !! l with
  | None => None
  | Some None => Some w
  | Some (Some r) =>
      match heap w !! r with
      | None => None
      | Some ws =>
          Some (set_locks (<[l := None]> (locks w))
                  (set_heap (<[r := release_state succ ws]> (heap w)) w))
      end
  end.

(** [Lock::Lock(const std::shared_ptr<WaitState>&)]: a new lock object bound
    to [r]; it is appended to the lock objects of the program. *)
Definition Lock_new (r : ref) (w : World) : option World :=
  match heap w !! r with
  | None => None
  | Some ws =>
      let ws' := mkWaitState (condition ws) (remaining_locks ws + 1)%Z (success ws) in
      Some (set_locks (locks w ++ [Some r]) (set_heap (<[r := ws']> (heap w)) w))
  end.

(** [Lock& Lock::operator=(Lock&& other)] *)
Definition Lock_move_assign (this other : nat) (w : World) : option World :=
  match Lock_release this false w with
  | None => None
  | Some w1 =>
      match locks w1 !! other with
      | None => None
      | Some o =>
          Some (set_locks (<[other := None]> (<[this := o]> (locks w1))) w1)
      end
  end.

(** [Lock::Lock(Lock&& other)]: the new object starts with a null
    [_wait_state] and is then move-assigned from [other]. *)
Definition Lock_move_construct (other : nat) (w : World) : option World :=
  Lock_move_assign (length (locks w)) other (set_locks (locks w ++ [None]) w).

(** [Lock::~Lock()].  The destroyed object keeps its index, with a null
    [_wait_state]. *)
Definition Lock_destroy (l : nat) (w : World) : option World :=
  Lock_release l false w.

(** ** Operations of [SuccessCondition] *)

(** [if (!_wait_state) _wait_state = std::make_shared<WaitState>(_ios);]
    returns the (now non-null) pointer. *)
Definition ensure_wait_state (w : World) : ref * World :=
  match sc_wait_state w with
  | Some r => (r, w)
  | None =>
      let r := length (heap w) in
      (r, set_sc (Some r) (set_heap (heap w ++ [WaitState_new]) w))
  end.

(** [SuccessCondition::lock()]; the returned lock is the last lock object. *)
Definition SuccessCondition_lock (w : World) : option World :=
  let '(r, w1) := ensure_wait_state w in
  Lock_new r w1.

(** [SuccessCondition::wait_for_success(yield)] up to its return or to the
    suspension inside [condition.wait(yield)].  The call is recorded as the
    last task. *)
Definition wait_for_success (w : World) : option World :=
  let '(r, w1) := ensure_wait_state w in
  let w2 := set_sc None w1 in
  match heap w2 !! r with
  | None => None
  | Some ws =>
      let tid := length (tasks w2) in
      if blocked ws then
        let '(cv, suspended) := ConditionVariable.wait tid (condition ws) in
        if suspended then
          Some (set_tasks (tasks w2 ++ [mkTask r Suspended])
                  (set_heap (<[r := mkWaitState cv (remaining_locks ws) (success ws)]>
                               (heap w2)) w2))
        else Some (set_tasks (tasks w2 ++ [mkTask r (Returned (success ws))]) w2)
      else Some (set_tasks (tasks w2 ++ [mkTask r (Returned (success ws))]) w2)
  end.

(** The rest of [wait_for_success] for the suspended call [tid]: it can be
    resumed once its condition has been notified, and returns
    [wait_state->success] as it is then. *)
Definition wait_for_success_resume (tid : task_id) (w : World) : option World :=
  match tasks w !! tid with
  | Some (mkTask r Suspended) =>
      match heap w !! r with
      | Some ws =>
          if ConditionVariable.fired (condition ws)
          then Some (set_tasks (<[tid := mkTask r (Returned (success ws))]> (tasks w)) w)
          else None
      | None => None
      end
  | _ => None
  end.

(** ** Executions *)

Inductive op :=
| OpLock
| OpRelease (l : nat) (succ : bool)
| OpMoveAssign (this other : nat)
| OpMoveConstruct (other : nat)
| OpDestroy (l : nat)
| OpWait
| OpResume (tid : task_id).

Definition step (o : op) (w : World) : option World :=
  match o with
  | OpLock => SuccessCondition_lock w
  | OpRelease l b => Lock_release l b w
  | OpMoveAssign this other => Lock_move_assign this other w
  | OpMoveConstruct other => Lock_move_construct other w
  | OpDestroy l => Lock_destroy l w
  | OpWait => wait_for_success w
  | OpResume tid => wait_for_success_resume tid w
  end.

Fixpoint run (ops : list op) (w : World) : option World :=
  match ops with
  | [] => Some w
  | o :: ops' =>
      match step o w with
      | Some w' => run ops' w'
      | None => None
      end
  end.

(** The operation acquires a lock. *)
Definition acquires_lock (o : op) : bool :=
  match o with
  | OpLock => true
  | _ => false
  end.

(** ** Predicates used in the statements *)

(** What can never be undone on a wait state: a recorded success and a
    delivered notification. *)
Definition ws_le (ws ws' : WaitState) : Prop :=
  (success ws = true → success ws' = true) ∧
  (ConditionVariable.fired (condition ws) = true →
   ConditionVariable.fired (condition ws') = true).

Definition heap_le (h h' : list WaitState) : Prop :=
  ∀ r ws, h !! r = Some ws → ∃ ws', h' !! r = Some ws' ∧ ws_le ws ws'.

(** The race [r] has been won: a success is recorded and the waiters have
    been notified. *)
Definition decided (r : ref) (w : World) : Prop :=
  ∃ ws, heap w !! r = Some ws ∧ success ws = true ∧
        ConditionVariable.fired (condition ws) = true.

Definition bound_to (r : ref) (o : Lock) : nat :=
  match o with
  | Some r' => if Nat.eqb r r' then 1 else 0
  | None => 0
  end.

(** Number of lock objects whose [_wait_state] points to [r]. *)
Fixpoint holders (r : ref) (ls : list Lock) : nat :=
  match ls with
  | [] => 0
  | o :: ls' => bound_to r o + holders r ls'
  end.

Record wf (w : World) : Prop := mk_wf {
  wf_remaining : ∀ r ws, heap w !! r = Some ws →
                 remaining_locks ws = Z.of_nat (holders r (locks w));
  wf_locks : ∀ l r, locks w !! l = Some (Some r) → r < length (heap w);
  wf_tasks : ∀ t tk, tasks w !! t = Some tk →
             ∃ ws, heap w !! wait_state tk = Some ws ∧
                   match status tk with
                   | Suspended =>
                       ConditionVariable.fired (condition ws) = true ∨
                       blocked ws = true
                   | Returned b => b = true → success ws = true
                   end;
  wf_sc : ∀ r, sc_wait_state w = Some r → r < length (heap w)
}.

(** The operation [o], run in [w], consumes a lock of race [r] by
    [release(true)]. *)
Definition reports_success (r : ref) (w : World) (o : op) : bool :=
  match o with
  | OpRelease l true =>
      match locks w !! l with
      | Some (Some r') => Nat.eqb r r'
      | _ => false
      end
  | _ => false
  end.

(** No operation of the execution [ops], started in [w], reports a success
    on race [r]: its locks are only consumed by [release(false)], by
    destruction or by being overwritten. *)
Fixpoint failing_race (r : ref) (ops : list op) (w : World) : bool :=
  match ops with
  | [] => true
  | o :: ops' =>
      negb (reports_success r w o) &&
      match step o w with
      | Some w' => failing_race r ops' w'
      | None => true
      end
  end.

Definition undecided (r : ref) (w : World) : Prop :=
  ∀ ws, heap w !! r = Some ws → success ws = false.

(** What holds of the races that have been awaited: [wait_for_success] has
    moved the coordinator's pointer away from them, no two calls share a
    race, and a suspended call has been notified exactly when its race is no
    longer blocked. *)
Record awaited (w : World) : Prop := mk_awaited {
  aw_sc : ∀ t tk, tasks w !! t = Some tk →
          sc_wait_state w ≠ Some (wait_state tk);
  aw_inj : ∀ t1 t2 tk1 tk2,
           tasks w !! t1 = Some tk1 → tasks w !! t2 = Some tk2 →
           wait_state tk1 = wait_state tk2 → t1 = t2;
  aw_susp : ∀ t r, tasks w !! t = Some (mkTask r Suspended) →
            ∃ ws, heap w !! r = Some ws ∧
                  ConditionVariable.fired (condition ws) = negb (blocked ws)
}.

(** ** connect_to_host *)

Module HostConnector.

(** The error taxonomy of the spec: [ConnectError] is local to one
    attempt, the three others are the ones surfaced to the caller. *)
Inductive Error :=
| ResolutionFailure
| ConnectError
| ConnectionFailed
| Cancelled.

Definition CandidateAddress := nat.
Definition Connection := nat.

Section Collaborators.

(** The external resolver and transport layer. *)
Variable resolve : string → string → Error + list CandidateAddress.
Variable transport_open : CandidateAddress → Error + Connection.

(** The external cancel signal, as the number of attempts that complete
    before it fires ([None]: it never fires). *)
Variable cancel_signal : option nat.

Definition cancel_fired (k : nat) : bool :=
  match cancel_signal with
  | Some c => Nat.leb c k
  | None => false
  end.

(** An operation of the coordinator that the orchestrator performs on
    objects it has just created. *)
Definition exec (o : op) (w : World) : World := default w (step o w).

(** Modelled from the spec: EndpointAttempt, the body of
    connect_to_host.cpp, which is not among the sources.  The attempt
    number [k] holds lock [k]; it opens a transport session unless the
    cancel signal has fired, and on success calls [release(true)] and
    stores its connection in the orchestrator's result slot (the first
    stored connection is kept, a later one is discarded); on failure or
    cancellation it calls [release(false)]. *)
Definition EndpointAttempt (k : nat) (a : CandidateAddress)
    (st : World * option Connection) : World * option Connection :=
  let '(w, slot) := st in
  match (if cancel_fired k then inl Cancelled else transport_open a) with
  | inr c => (exec (OpRelease k true) w,
              match slot with Some c0 => Some c0 | None => Some c end)
  | inl _ => (exec (OpRelease k false) w, slot)
  end.

Fixpoint attempts (k : nat) (addrs : list CandidateAddress)
    (st : World * option Connection) : World * option Connection :=
  match addrs with
  | [] => st
  | a :: addrs' => attempts (S k) addrs' (EndpointAttempt k a st)
  end.

Fixpoint acquire_locks (n : nat) (w : World) : World :=
  match n with
  | O => w
  | S n' => acquire_locks n' (exec OpLock w)
  end.

(** Modelled from the spec: connect_to_host is only declared in
    connect_to_host.h; its body is not among the sources.  Following
    the spec's algorithm: resolve, failing with [ResolutionFailure] when
    the resolver fails or yields no candidate; create one coordinator
    and acquire one lock per candidate; suspend on [wait_for_success];
    let the attempts run; when the wait yields [true] return the
    recorded connection, otherwise fail with [Cancelled] if the external
    signal has fired and with [ConnectionFailed] if not. *)
Definition connect_to_host (host port : string) : Error + Connection :=
  match resolve host port with
  | inl _ => inl ResolutionFailure
  | inr [] => inl ResolutionFailure
  | inr addrs =>
      let w1 := acquire_locks (length addrs) init in
      let w2 := exec OpWait w1 in
      let '(w3, slot) := attempts 0 addrs (w2, None) in
      let w4 := exec (OpResume 0) w3 in
      match tasks w4 !! 0, slot with
      | Some (mkTask _ (Returned true)), Some c => inr c
      | _, _ =>
          if cancel_fired (length addrs) then inl Cancelled
          else inl ConnectionFailed
      end
  end.

End Collaborators.

End HostConnector.

(** ** Example executions *)

(** Three participants and a pending call of [wait_for_success]. *)
Definition race3 : World :=
  default init (run [OpLock; OpLock; OpLock; OpWait] init).

(** The second participant has reported a success. *)
Definition race3_won : World :=
  default init (step (OpRelease 1 true) race3).

(** Afterwards the first one fails and the third one is dropped. *)
Definition race3_end : World :=
  default init (run [OpRelease 0 false; OpDestroy 2] race3_won).

(** Two participants, both still running. *)
Definition race2 : World := default init (run [OpLock; OpLock] init).

(** Two participants that both fail while the coordinator waits. *)
Definition failing_run : list op :=
  [OpLock; OpLock; OpWait; OpRelease 0 false; OpDestroy 1].

Definition race2_failed : World := default init (run failing_run init).

(** A coordinator that has only been waited on, twice. *)
Definition idle2 : World := default init (run [OpWait; OpWait] init).

(** A race of one participant, won, then awaited. *)
Definition won_run : list op := [OpLock; OpRelease 0 true].

Definition race1_won : World := default init (run won_run init).

Definition race1_waited : World := default init (step OpWait race1_won).

(** Two participants, the first of which has failed, and a pending call. *)
Definition race2_half : World :=
  default init (run [OpLock; OpLock; OpWait; OpRelease 0 false] init).

(** * Proofs *)

(** The example executions, evaluated: with three participants the caller is
    suspended; after the second one's [release(true)] the condition has
    fired although two locks remain; with two failures the caller is woken
    by the last one. *)
Example race3_state :
  race3 = mkWorld [mkWaitState (ConditionVariable.mk false [0]) 3 false]
                  None [Some 0; Some 0; Some 0] [mkTask 0 Suspended].
Proof. reflexivity. Qed.

Example race3_won_state :
  race3_won = mkWorld [mkWaitState (ConditionVariable.mk true []) 2 true]
                      None [Some 0; None; Some 0] [mkTask 0 Suspended].
Proof. reflexivity. Qed.

Example race2_failed_state :
  race2_failed = mkWorld [mkWaitState (ConditionVariable.mk true []) 0 false]
                         None [None; None] [mkTask 0 Suspended].
Proof. reflexivity. Qed.

Ltac unfold_ops :=
  unfold step, SuccessCondition_lock, wait_for_success,
    wait_for_success_resume, Lock_move_construct, Lock_destroy,
    Lock_move_assign, Lock_new, ensure_wait_state,
    ConditionVariable.wait in *.

(** ** Monotone facts about a wait state *)

Lemma ws_le_refl ws : ws_le ws ws.
Proof. by split. Qed.

Lemma heap_le_refl h : heap_le h h.
Proof. intros r ws Hr. exists ws. split; [done | apply ws_le_refl]. Qed.

Lemma heap_le_trans h1 h2 h3 : heap_le h1 h2 → heap_le h2 h3 → heap_le h1 h3.
Proof.
  intros H12 H23 r ws Hr.
  destruct (H12 r ws Hr) as (ws2 & Hr2 & [Ha Hb]).
  destruct (H23 r ws2 Hr2) as (ws3 & Hr3 & [Hc Hd]).
  exists ws3. repeat split; auto.
Qed.

Lemma heap_le_insert (h : list WaitState) r ws ws' :
  h !! r = Some ws → ws_le ws ws' → heap_le h (<[r := ws']> h).
Proof.
  intros Hr Hle r0 ws0 Hr0.
  destruct (decide (r = r0)) as [-> | Hne].
  - exists ws'. split.
    + apply list_lookup_insert_eq. by eapply lookup_lt_Some.
    + congruence.
  - exists ws0. split; [by rewrite list_lookup_insert_ne | apply ws_le_refl].
Qed.

Lemma heap_le_app (h : list WaitState) ws : heap_le h (h ++ [ws]).
Proof.
  intros r ws0 Hr. exists ws0. split; [| apply ws_le_refl].
  by apply lookup_app_l_Some.
Qed.

Lemma fired_notify cv :
  ConditionVariable.fired (ConditionVariable.notify cv) = true.
Proof. unfold ConditionVariable.notify. by destruct (ConditionVariable.fired cv) eqn:E. Qed.

Lemma release_state_success succ ws :
  success (release_state succ ws) = succ || success ws.
Proof. unfold release_state. destruct succ; simpl; by case_match. Qed.

Lemma release_state_remaining succ ws :
  remaining_locks (release_state succ ws) = (remaining_locks ws - 1)%Z.
Proof. unfold release_state. destruct succ; simpl; by case_match. Qed.

Lemma release_state_fired_mono succ ws :
  ConditionVariable.fired (condition ws) = true →
  ConditionVariable.fired (condition (release_state succ ws)) = true.
Proof.
  intros Hf. unfold release_state.
  destruct succ; simpl; case_match; simpl; auto using fired_notify.
Qed.

(** After a release the race is either still blocked or its condition has
    been notified. *)
Lemma release_state_fired_or_blocked succ ws :
  ConditionVariable.fired (condition (release_state succ ws)) = true ∨
  blocked (release_state succ ws) = true.
Proof.
  unfold release_state.
  destruct succ; simpl; case_match; simpl; auto using fired_notify.
Qed.

Lemma release_state_true_fired ws :
  ConditionVariable.fired (condition (release_state true ws)) = true.
Proof.
  destruct (release_state_fired_or_blocked true ws) as [H | H]; [done |].
  unfold blocked in H. rewrite release_state_success in H.
  simpl in H. by rewrite andb_false_r in H.
Qed.

Lemma release_state_le succ ws : ws_le ws (release_state succ ws).
Proof.
  split.
  - intros Hs. rewrite release_state_success, Hs. apply orb_true_r.
  - apply release_state_fired_mono.
Qed.

(** ** How one operation changes the heap and the tasks *)

Lemma Lock_release_heap_le l b w w' :
  Lock_release l b w = Some w' → heap_le (heap w) (heap w').
Proof.
  unfold Lock_release. intros H.
  repeat case_match; simplify_eq; simpl; try apply heap_le_refl.
  eapply heap_le_insert; [done | apply release_state_le].
Qed.

Lemma Lock_release_tasks l b w w' :
  Lock_release l b w = Some w' →
  tasks w' = tasks w ∧ sc_wait_state w' = sc_wait_state w.
Proof. unfold Lock_release. intros H. by repeat case_match; simplify_eq. Qed.

Lemma step_heap_le o w w' : step o w = Some w' → heap_le (heap w) (heap w').
Proof.
  destruct o; simpl.
  - unfold_ops. intros H. repeat case_match; simplify_eq; simpl in *.
    + eapply heap_le_insert; [done | by split].
    + eapply heap_le_trans; [apply heap_le_app |].
      eapply heap_le_insert; [done | by split].
  - apply Lock_release_heap_le.
  - unfold Lock_move_assign. intros H.
    destruct (Lock_release this false w) as [w1 |] eqn:E; [| done].
    apply Lock_release_heap_le in E.
    by repeat case_match; simplify_eq.
  - unfold Lock_move_construct, Lock_move_assign. intros H.
    destruct (Lock_release _ false _) as [w1 |] eqn:E; [| done].
    apply Lock_release_heap_le in E.
    by repeat case_match; simplify_eq.
  - apply Lock_release_heap_le.
  - unfold_ops. intros H.
    repeat case_match; simplify_eq; simpl in *;
      try apply heap_le_refl; try apply heap_le_app.
    + eapply heap_le_insert; [done | split; simpl; [done | congruence]].
    + eapply heap_le_trans; [apply heap_le_app |].
      eapply heap_le_insert; [done | split; simpl; [done | congruence]].
  - unfold_ops. intros H.
    repeat case_match; simplify_eq; simpl. apply heap_le_refl.
Qed.

Lemma run_heap_le ops : ∀ w w', run ops w = Some w' → heap_le (heap w) (heap w').
Proof.
  induction ops as [| o ops IH]; simpl; intros w w' H.
  - simplify_eq. apply heap_le_refl.
  - destruct (step o w) as [w1 |] eqn:E; [| done].
    eapply heap_le_trans; [by eapply step_heap_le | by apply IH].
Qed.

Lemma decided_heap_le r w w' :
  heap_le (heap w) (heap w') → decided r w → decided r w'.
Proof.
  intros Hle (ws & Hr & Hs & Hf).
  destruct (Hle r ws Hr) as (ws' & Hr' & [Ha Hb]).
  exists ws'. auto.
Qed.

Lemma Lock_release_true_decided l r w w' :
  locks w !! l = Some (Some r) →
  Lock_release l true w = Some w' → decided r w'.
Proof.
  unfold Lock_release. intros Hl H. rewrite Hl in H.
  destruct (heap w !! r) as [ws |] eqn:Hr; [| done]. simplify_eq.
  exists (release_state true ws). simpl. split.
  - apply list_lookup_insert_eq. by eapply lookup_lt_Some.
  - split; [by rewrite release_state_success | apply release_state_true_fired].
Qed.

(** Calling [wait_for_success] while the coordinator points to a race with a
    recorded success: the call returns [true] without suspending. *)
Lemma wait_for_success_won r ws w :
  sc_wait_state w = Some r → heap w !! r = Some ws → success ws = true →
  wait_for_success w =
    Some (set_tasks (tasks w ++ [mkTask r (Returned true)]) (set_sc None w)).
Proof.
  intros Hsc Hr Hs. unfold wait_for_success, ensure_wait_state.
  rewrite Hsc. simpl. rewrite Hr.
  unfold blocked. by rewrite Hs, andb_false_r.
Qed.

Lemma ensure_wait_state_spec w :
  (sc_wait_state w = Some (ensure_wait_state w).1 ∧ (ensure_wait_state w).2 = w) ∨
  (sc_wait_state w = None ∧ (ensure_wait_state w).1 = length (heap w) ∧
   (ensure_wait_state w).2 =
     set_sc (Some (length (heap w))) (set_heap (heap w ++ [WaitState_new]) w)).
Proof. unfold ensure_wait_state. destruct (sc_wait_state w); simpl; auto. Qed.

(** The two ways out of the first half of [wait_for_success]. *)
Lemma wait_for_success_spec w w' :
  wait_for_success w = Some w' →
  ∃ ws st,
    let r := (ensure_wait_state w).1 in
    let h := heap (ensure_wait_state w).2 in
    h !! r = Some ws ∧
    tasks w' = tasks w ++ [mkTask r st] ∧
    sc_wait_state w' = None ∧ locks w' = locks w ∧
    ((st = Suspended ∧ blocked ws = true ∧
      ConditionVariable.fired (condition ws) = false ∧
      heap w' = <[r := mkWaitState
                         (ConditionVariable.mk false
                            (ConditionVariable.pending (condition ws) ++ [length (tasks w)]))
                         (remaining_locks ws) (success ws)]> h) ∨
     (st = Returned (success ws) ∧ heap w' = h ∧
      (blocked ws = false ∨ ConditionVariable.fired (condition ws) = true))).
Proof.
  unfold wait_for_success, ConditionVariable.wait.
  destruct (ensure_wait_state w) as [r w1] eqn:E.
  assert (tasks w1 = tasks w ∧ locks w1 = locks w) as [Ht Hl].
  { unfold ensure_wait_state in E. by case_match; simplify_eq. }
  simpl. intros H.
  destruct (heap w1 !! r) as [ws |] eqn:Hr; [| done].
  exists ws.
  destruct (blocked ws) eqn:Hb;
    [destruct (ConditionVariable.fired (condition ws)) eqn:Hf |];
    simplify_eq; simpl; rewrite Ht, ?Hl.
  - exists (Returned (success ws)). repeat split; auto.
  - exists Suspended. repeat split; auto.
  - exists (Returned (success ws)). repeat split; auto.
Qed.

Lemma wait_for_success_resume_spec tid w w' :
  wait_for_success_resume tid w = Some w' →
  ∃ r ws,
    tasks w !! tid = Some (mkTask r Suspended) ∧ heap w !! r = Some ws ∧
    ConditionVariable.fired (condition ws) = true ∧
    w' = set_tasks (<[tid := mkTask r (Returned (success ws))]> (tasks w)) w.
Proof.
  unfold wait_for_success_resume. intros H.
  repeat case_match; simplify_eq. eauto 10.
Qed.

(** Operations on locks do not touch the calls of [wait_for_success]. *)
Lemma lock_op_tasks o w w' :
  step o w = Some w' →
  match o with OpWait | OpResume _ => True | _ => tasks w' = tasks w end.
Proof.
  destruct o; simpl; try done.
  - unfold_ops. intros H. by repeat case_match; simplify_eq.
  - intros H. by apply Lock_release_tasks in H as [-> _].
  - unfold Lock_move_assign. intros H.
    destruct (Lock_release this false w) as [w1 |] eqn:E; [| done].
    apply Lock_release_tasks in E as [<- _]. by repeat case_match; simplify_eq.
  - unfold Lock_move_construct, Lock_move_assign. intros H.
    destruct (Lock_release _ false _) as [w1 |] eqn:E; [| done].
    apply Lock_release_tasks in E as [E _]. simpl in E. rewrite <- E.
    by repeat case_match; simplify_eq.
  - intros H. by apply Lock_release_tasks in H as [-> _].
Qed.

(** Once a race is decided, every call of [wait_for_success] on it that
    changes state returns [true]. *)
Lemma step_tasks_decided r o w w' :
  decided r w → step o w = Some w' →
  ∀ t tk, tasks w' !! t = Some tk → wait_state tk = r →
          tasks w !! t = Some tk ∨ status tk = Returned true.
Proof.
  intros (ws & Hr & Hs & Hf) Hstep t tk Ht Hw.
  pose proof (lock_op_tasks _ _ _ Hstep) as Hlk.
  destruct o; try (rewrite Hlk in Ht; by left); simpl in Hstep.
  - apply wait_for_success_spec in Hstep as (ws1 & st & H1 & H2 & _ & _ & H3).
    simpl in *. rewrite H2 in Ht.
    apply lookup_app_Some in Ht as [Ht | [_ Ht]]; [by left |].
    apply list_lookup_singleton_Some in Ht as [_ <-]. simpl in Hw.
    assert (ws1 = ws) as ->.
    { destruct (ensure_wait_state_spec w) as [[_ E] | (_ & E1 & E2)].
      - rewrite E in H1. congruence.
      - apply lookup_lt_Some in Hr. lia. }
    right. simpl.
    destruct H3 as [(_ & Hb & _) | (-> & _)]; [| by rewrite Hs].
    unfold blocked in Hb. by rewrite Hs, andb_false_r in Hb.
  - apply wait_for_success_resume_spec in Hstep as (r1 & ws1 & H1 & H2 & H3 & ->).
    simpl in Ht.
    destruct (decide (tid = t)) as [-> | Hne].
    + rewrite list_lookup_insert_eq in Ht by (by eapply lookup_lt_Some).
      simplify_eq. simpl in *. right. congruence.
    + rewrite list_lookup_insert_ne in Ht by done. by left.
Qed.

Lemma run_tasks_decided r ops :
  ∀ w w', decided r w → run ops w = Some w' →
  ∀ t tk, tasks w' !! t = Some tk → wait_state tk = r →
          tasks w !! t = Some tk ∨ status tk = Returned true.
Proof.
  induction ops as [| o ops IH]; simpl; intros w w' Hd H t tk Ht Hw.
  - simplify_eq. by left.
  - destruct (step o w) as [w1 |] eqn:E; [| done].
    assert (decided r w1) as Hd1
      by (eapply decided_heap_le; [by eapply step_heap_le | done]).
    destruct (IH w1 w' Hd1 H t tk Ht Hw) as [Ht1 | ?]; [| by right].
    by eapply step_tasks_decided.
Qed.

(** A suspended call on a decided race can be resumed, and returns [true]. *)
Lemma resume_decided r t w :
  decided r w → tasks w !! t = Some (mkTask r Suspended) →
  ∃ w', wait_for_success_resume t w = Some w' ∧
        tasks w' !! t = Some (mkTask r (Returned true)).
Proof.
  intros (ws & Hr & Hs & Hf) Ht. unfold wait_for_success_resume.
  rewrite Ht, Hr, Hf, Hs. eexists. split; [done |]. simpl.
  apply list_lookup_insert_eq. by eapply lookup_lt_Some.
Qed.

Lemma wait_decided r w :
  decided r w → sc_wait_state w = Some r →
  ∃ w', wait_for_success w = Some w' ∧
        tasks w' !! length (tasks w) = Some (mkTask r (Returned true)).
Proof.
  intros (ws & Hr & Hs & Hf) Hsc.
  erewrite wait_for_success_won by done.
  eexists. split; [done |]. simpl.
  rewrite lookup_app_r by lia. by rewrite Nat.sub_diag.
Qed.

(** ** A reported success *)

(** C1: among any number of locks, once one lock of a race is consumed by
    [release(true)], every call of [wait_for_success] on that race that had
    not returned before the release returns [true]: a call that is pending
    can be resumed and yields [true], a call that has returned since has
    returned [true], and a call made later on the same race returns [true]
    at once.  Nothing is assumed about the other locks of the race. *)
Theorem release_true_wait_returns_true w l r w1 ops w2 :
  locks w !! l = Some (Some r) →
  step (OpRelease l true) w = Some w1 →
  run ops w1 = Some w2 →
  (∀ t tk, tasks w2 !! t = Some tk → wait_state tk = r →
     (∃ b, tasks w !! t = Some (mkTask r (Returned b))) ∨
     status tk = Returned true ∨
     (status tk = Suspended ∧
      ∃ w3, step (OpResume t) w2 = Some w3 ∧
            tasks w3 !! t = Some (mkTask r (Returned true)))) ∧
  (sc_wait_state w2 = Some r →
     ∃ w3, step OpWait w2 = Some w3 ∧
           tasks w3 !! length (tasks w2) = Some (mkTask r (Returned true))).
Proof.
  simpl. intros Hl Hrel Hrun.
  pose proof (Lock_release_true_decided _ _ _ _ Hl Hrel) as Hd1.
  assert (decided r w2) as Hd2
    by (eapply decided_heap_le; [by eapply run_heap_le | done]).
  split; [| by apply wait_decided].
  intros t tk Ht Hw.
  destruct (run_tasks_decided r ops w1 w2 Hd1 Hrun t tk Ht Hw) as [Ht1 | ?];
    [| by auto].
  apply Lock_release_tasks in Hrel as [Hrel _]. rewrite Hrel in Ht1.
  destruct tk as [r' [| b]]; simpl in Hw; subst r'.
  - right. right. split; [done |]. by apply resume_decided.
  - left. by exists b.
Qed.

Lemma release_true_wait_returns_true_witness :
  locks race3 !! 1 = Some (Some 0) ∧
  step (OpRelease 1 true) race3 = Some race3_won ∧
  run [OpRelease 0 false; OpDestroy 2] race3_won = Some race3_end ∧
  (∀ t tk, tasks race3_end !! t = Some tk → wait_state tk = 0 →
     (∃ b, tasks race3 !! t = Some (mkTask 0 (Returned b))) ∨
     status tk = Returned true ∨
     (status tk = Suspended ∧
      ∃ w3, step (OpResume t) race3_end = Some w3 ∧
            tasks w3 !! t = Some (mkTask 0 (Returned true)))) ∧
  (sc_wait_state race3_end = Some 0 →
     ∃ w3, step OpWait race3_end = Some w3 ∧
           tasks w3 !! length (tasks race3_end) =
             Some (mkTask 0 (Returned true))).
Proof.
  split; [reflexivity |]. split; [reflexivity |]. split; [reflexivity |].
  apply (release_true_wait_returns_true race3 1 0 race3_won
           [OpRelease 0 false; OpDestroy 2] race3_end); reflexivity.
Defined.

(** C5: the success flag never reverts.  After some lock of race [r] has
    been consumed by [release(true)], whatever happens next, including
    [release(false)] on, or the destruction of, the other locks of the race,
    the flag of [r] is still set, and a call of [wait_for_success] on [r]
    returns [true]. *)
Theorem succeeded_is_monotonic w l r w1 ops w2 :
  locks w !! l = Some (Some r) →
  step (OpRelease l true) w = Some w1 →
  run ops w1 = Some w2 →
  (∃ ws2, heap w2 !! r = Some ws2 ∧ success ws2 = true) ∧
  (∀ l' w3, step (OpRelease l' false) w2 = Some w3 ∨
            step (OpDestroy l') w2 = Some w3 →
            ∃ ws3, heap w3 !! r = Some ws3 ∧ success ws3 = true) ∧
  (sc_wait_state w2 = Some r →
     ∃ w3, step OpWait w2 = Some w3 ∧
           tasks w3 !! length (tasks w2) = Some (mkTask r (Returned true))).
Proof.
  simpl. intros Hl Hrel Hrun.
  pose proof (Lock_release_true_decided _ _ _ _ Hl Hrel) as Hd1.
  assert (decided r w2) as Hd2
    by (eapply decided_heap_le; [by eapply run_heap_le | done]).
  split; [| split].
  - destruct Hd2 as (ws & ? & ? & _). eauto.
  - intros l' w3 H3. unfold Lock_destroy in H3.
    assert (decided r w3) as (ws & ? & ? & _); [| by eauto].
    eapply decided_heap_le; [| done].
    destruct H3 as [H3 | H3]; by eapply Lock_release_heap_le.
  - by apply wait_decided.
Qed.

Lemma succeeded_is_monotonic_witness :
  locks race2 !! 0 = Some (Some 0) ∧
  step (OpRelease 0 true) race2 =
    Some (default init (step (OpRelease 0 true) race2)) ∧
  run [OpRelease 1 false] (default init (step (OpRelease 0 true) race2)) =
    Some (default init (run [OpRelease 0 true; OpRelease 1 false] race2)) ∧
  ∃ ws2, heap (default init (run [OpRelease 0 true; OpRelease 1 false] race2))
           !! 0 = Some ws2 ∧ success ws2 = true.
Proof.
  split; [reflexivity |]. split; [reflexivity |]. split; [reflexivity |].
  apply (succeeded_is_monotonic race2 0 0
           (default init (step (OpRelease 0 true) race2)) [OpRelease 1 false]
           (default init (run [OpRelease 0 true; OpRelease 1 false] race2)));
    reflexivity.
Defined.

(** C6: no missed wake-up.  If a lock of the race was consumed by
    [release(true)] before [wait_for_success] is called on that race, the
    call returns [true] without suspending: it does not reach
    [condition.wait], the heap is left as it is, and the only effects are
    that the coordinator gives up its pointer and the call is recorded as
    returned. *)
Theorem wait_after_success_is_immediate w l r w1 ops w2 :
  locks w !! l = Some (Some r) →
  step (OpRelease l true) w = Some w1 →
  run ops w1 = Some w2 →
  sc_wait_state w2 = Some r →
  step OpWait w2 =
    Some (set_tasks (tasks w2 ++ [mkTask r (Returned true)]) (set_sc None w2)).
Proof.
  simpl. intros Hl Hrel Hrun Hsc.
  pose proof (Lock_release_true_decided _ _ _ _ Hl Hrel) as Hd1.
  assert (decided r w2) as (ws & Hr & Hs & _)
    by (eapply decided_heap_le; [by eapply run_heap_le | done]).
  by eapply wait_for_success_won.
Qed.

Lemma wait_after_success_is_immediate_witness :
  locks race2 !! 1 = Some (Some 0) ∧
  step (OpRelease 1 true) race2 =
    Some (default init (step (OpRelease 1 true) race2)) ∧
  run [OpDestroy 0] (default init (step (OpRelease 1 true) race2)) =
    Some (default init (run [OpRelease 1 true; OpDestroy 0] race2)) ∧
  sc_wait_state (default init (run [OpRelease 1 true; OpDestroy 0] race2)) =
    Some 0 ∧
  step OpWait (default init (run [OpRelease 1 true; OpDestroy 0] race2)) =
    Some (set_tasks [mkTask 0 (Returned true)]
            (set_sc None
               (default init (run [OpRelease 1 true; OpDestroy 0] race2)))).
Proof.
  split; [reflexivity |]. split; [reflexivity |]. split; [reflexivity |].
  split; [reflexivity |].
  apply (wait_after_success_is_immediate race2 1 0
           (default init (step (OpRelease 1 true) race2)) [OpDestroy 0]
           (default init (run [OpRelease 1 true; OpDestroy 0] race2)));
    reflexivity.
Defined.

(** ** The counter and the locks *)

Lemma holders_app r ls o : holders r (ls ++ [o]) = holders r ls + bound_to r o.
Proof. induction ls as [| o' ls IH]; simpl; lia. Qed.

Lemma holders_insert r (ls : list Lock) l o o' :
  ls !! l = Some o →
  holders r (<[l := o']> ls) + bound_to r o = holders r ls + bound_to r o'.
Proof.
  revert l. induction ls as [| o0 ls IH]; intros [| l] H; simplify_eq/=.
  - lia.
  - specialize (IH l H). lia.
Qed.

Lemma holders_none r (ls : list Lock) :
  (∀ l, ls !! l ≠ Some (Some r)) → holders r ls = 0.
Proof.
  induction ls as [| o ls IH]; intros H; [done |]. simpl.
  rewrite IH by (intros l; apply (H (S l))).
  destruct o as [r' |]; simpl; [| done].
  destruct (Nat.eqb_spec r r') as [-> |]; [by destruct (H 0) | done].
Qed.

Lemma bound_to_other r r' : r ≠ r' → bound_to r (Some r') = 0.
Proof. simpl. by destruct (Nat.eqb_spec r r'). Qed.

Lemma wf_init : wf init.
Proof. split; simpl; intros *; by rewrite ?lookup_nil. Qed.

Lemma wf_Lock_release l b w w' :
  Lock_release l b w = Some w' → wf w → wf w'.
Proof.
  unfold Lock_release. intros H [Hrem Hlk Htk Hsc].
  destruct (locks w !! l) as [[r0 |] |] eqn:Hl; simplify_eq; [| done].
  destruct (heap w !! r0) as [ws0 |] eqn:Hr0; simplify_eq.
  pose proof (lookup_lt_Some _ _ _ Hr0) as Hlt.
  split; simpl.
  - intros r ws Hr.
    pose proof (holders_insert r _ _ _ None Hl) as Hh. simpl in Hh.
    destruct (decide (r0 = r)) as [<- | Hne].
    + rewrite list_lookup_insert_eq in Hr by done. simplify_eq.
      rewrite release_state_remaining, (Hrem _ _ Hr0).
      rewrite Nat.eqb_refl in Hh. lia.
    + rewrite list_lookup_insert_ne in Hr by done.
      rewrite (Hrem _ _ Hr).
      destruct (Nat.eqb_spec r r0); [congruence | f_equal; lia].
  - intros l' r Hl'. rewrite length_insert.
    apply list_lookup_insert_Some in Hl' as [(_ & ? & _) | [_ Hl']]; [done |].
    by eapply Hlk.
  - intros t tk Ht. destruct (Htk t tk Ht) as (ws & Hr & Hst).
    destruct (decide (r0 = wait_state tk)) as [E | Hne].
    + rewrite <- E in *. simplify_eq.
      eexists. split; [by apply list_lookup_insert_eq |].
      destruct (status tk).
      * apply release_state_fired_or_blocked.
      * intros Hb. rewrite release_state_success, (Hst Hb). apply orb_true_r.
    + exists ws. by rewrite list_lookup_insert_ne.
  - intros r Hr. rewrite length_insert. by apply Hsc.
Qed.

Lemma wf_Lock_new r0 w w' : Lock_new r0 w = Some w' → wf w → wf w'.
Proof.
  unfold Lock_new. intros H [Hrem Hlk Htk Hsc].
  destruct (heap w !! r0) as [ws0 |] eqn:Hr0; simplify_eq.
  pose proof (lookup_lt_Some _ _ _ Hr0) as Hlt.
  split; simpl.
  - intros r ws Hr. rewrite holders_app.
    destruct (decide (r0 = r)) as [<- | Hne].
    + rewrite list_lookup_insert_eq in Hr by done. simplify_eq. simpl.
      rewrite (Hrem _ _ Hr0), Nat.eqb_refl. lia.
    + rewrite list_lookup_insert_ne in Hr by done.
      rewrite (Hrem _ _ Hr), bound_to_other by done. f_equal. lia.
  - intros l' r Hl'. rewrite length_insert.
    apply lookup_app_Some in Hl' as [Hl' | [_ Hl']]; [by eapply Hlk |].
    apply list_lookup_singleton_Some in Hl' as [_ ?]. by simplify_eq.
  - intros t tk Ht. destruct (Htk t tk Ht) as (ws & Hr & Hst).
    destruct (decide (r0 = wait_state tk)) as [E | Hne].
    + rewrite <- E in *. simplify_eq.
      eexists. split; [by apply list_lookup_insert_eq |].
      destruct (status tk); simpl; [| done].
      destruct Hst as [? | Hb]; [by left | right].
      unfold blocked in *. simpl.
      apply andb_true_iff in Hb as [Hb ->]. apply Z.ltb_lt in Hb.
      rewrite andb_true_r. apply Z.ltb_lt. lia.
    + exists ws. by rewrite list_lookup_insert_ne.
  - intros r Hr. rewrite length_insert. by apply Hsc.
Qed.

Lemma ensure_wait_state_fields w :
  tasks (ensure_wait_state w).2 = tasks w ∧
  locks (ensure_wait_state w).2 = locks w ∧
  sc_wait_state (ensure_wait_state w).2 = Some (ensure_wait_state w).1.
Proof. unfold ensure_wait_state. by destruct (sc_wait_state w) eqn:E. Qed.

Lemma wf_ensure_wait_state w : wf w → wf (ensure_wait_state w).2.
Proof.
  intros Hwf. destruct (ensure_wait_state_spec w) as [[_ ->] | (_ & _ & ->)];
    [done |].
  destruct Hwf as [Hrem Hlk Htk Hsc]. split; simpl.
  - intros r ws Hr.
    apply lookup_app_Some in Hr as [Hr | [Hge Hr]]; [by apply Hrem |].
    apply list_lookup_singleton_Some in Hr as [_ <-]. simpl.
    rewrite holders_none; [done |].
    intros l Hl. apply Hlk in Hl. lia.
  - intros l r Hl. rewrite length_app. apply Hlk in Hl. lia.
  - intros t tk Ht. destruct (Htk t tk Ht) as (ws & Hr & Hst).
    exists ws. split; [by apply lookup_app_l_Some | done].
  - intros r Hr. simplify_eq. rewrite length_app. simpl. lia.
Qed.

Lemma wf_set_locks ls w :
  wf w →
  (∀ r, holders r ls = holders r (locks w)) →
  (∀ l r, ls !! l = Some (Some r) → ∃ l', locks w !! l' = Some (Some r)) →
  wf (set_locks ls w).
Proof.
  intros [Hrem Hlk Htk Hsc] Hh Hl. split; simpl.
  - intros r ws Hr. rewrite Hh. by apply Hrem.
  - intros l r Hlr. destruct (Hl l r Hlr) as [l' Hl']. by eapply Hlk.
  - done.
  - done.
Qed.

(** The pointer shuffle of the move assignment, once [this] is null. *)
Lemma wf_move_locks this other o w :
  wf w → locks w !! this = Some None → locks w !! other = Some o →
  wf (set_locks (<[other := None]> (<[this := o]> (locks w))) w).
Proof.
  intros Hwf Hthis Hother.
  assert (<[this := o]> (locks w) !! other = Some o) as Hother'.
  { destruct (decide (this = other)) as [-> | Hne].
    - apply list_lookup_insert_eq. by eapply lookup_lt_Some.
    - by rewrite list_lookup_insert_ne. }
  apply wf_set_locks; [done | |].
  - intros r.
    pose proof (holders_insert r _ _ _ o Hthis) as H1.
    pose proof (holders_insert r _ _ _ None Hother') as H2.
    simpl in *. lia.
  - intros l r Hl.
    apply list_lookup_insert_Some in Hl as [(_ & ? & _) | [_ Hl]]; [done |].
    apply list_lookup_insert_Some in Hl as [(_ & -> & _) | [_ Hl]]; eauto.
Qed.

Lemma Lock_release_unbinds l b w w' :
  Lock_release l b w = Some w' → locks w' !! l = Some None.
Proof.
  unfold Lock_release. intros H.
  destruct (locks w !! l) as [[r0 |] |] eqn:Hl; simplify_eq; [| done].
  destruct (heap w !! r0); simplify_eq. simpl.
  apply list_lookup_insert_eq. by eapply lookup_lt_Some.
Qed.

Lemma wf_Lock_move_assign this other w w' :
  Lock_move_assign this other w = Some w' → wf w → wf w'.
Proof.
  unfold Lock_move_assign. intros H Hwf.
  destruct (Lock_release this false w) as [w1 |] eqn:E; [| done].
  destruct (locks w1 !! other) as [o |] eqn:Ho; simplify_eq.
  apply wf_move_locks; [by eapply wf_Lock_release | | done].
  by eapply Lock_release_unbinds.
Qed.

Lemma wf_push_null w : wf w → wf (set_locks (locks w ++ [None]) w).
Proof.
  intros Hwf. apply wf_set_locks; [done | |].
  - intros r. rewrite holders_app. simpl. lia.
  - intros l r Hl.
    apply lookup_app_Some in Hl as [Hl | [_ Hl]]; [eauto |].
    by apply list_lookup_singleton_Some in Hl as [_ ?].
Qed.

Lemma wf_wait_for_success w w' : wait_for_success w = Some w' → wf w → wf w'.
Proof.
  intros H Hwf.
  apply wait_for_success_spec in H as (ws & st & Hr & Ht & Hnull & Hl & Hcase).
  simpl in *.
  destruct (ensure_wait_state_fields w) as (Et & El & _).
  destruct (wf_ensure_wait_state w Hwf) as [Hrem Hlk Htk _].
  rewrite Et in Htk. rewrite El in Hrem, Hlk.
  set (r := (ensure_wait_state w).1) in *.
  set (h := heap (ensure_wait_state w).2) in *.
  pose proof (lookup_lt_Some _ _ _ Hr) as Hlt.
  destruct Hcase as [(-> & Hb & Hf & Hh) | (-> & Hh & _)]; split;
    rewrite ?Hh, ?Hl, ?Ht, ?Hnull; try done.
  - intros r' ws' Hr'.
    destruct (decide (r = r')) as [<- | Hne].
    + rewrite list_lookup_insert_eq in Hr' by done. simplify_eq. simpl.
      by apply Hrem.
    + rewrite list_lookup_insert_ne in Hr' by done. by apply Hrem.
  - intros l' r' Hl'. rewrite length_insert. by eapply Hlk.
  - intros t tk Htk'.
    assert (∃ ws', h !! wait_state tk = Some ws' ∧
              match status tk with
              | Suspended =>
                  ConditionVariable.fired (condition ws') = true ∨
                  blocked ws' = true
              | Returned b => b = true → success ws' = true
              end) as (ws' & Hr' & Hst).
    { apply lookup_app_Some in Htk' as [Htk' | [_ Htk']]; [by eapply Htk |].
      apply list_lookup_singleton_Some in Htk' as [_ <-]. simpl. eauto. }
    destruct (decide (r = wait_state tk)) as [E | Hne].
    + rewrite <- E in *. simplify_eq.
      eexists. split; [by apply list_lookup_insert_eq |].
      destruct (status tk); simpl; [| done]. by right.
    + exists ws'. by rewrite list_lookup_insert_ne.
  - intros t tk Htk'.
    apply lookup_app_Some in Htk' as [Htk' | [_ Htk']]; [by eapply Htk |].
    apply list_lookup_singleton_Some in Htk' as [_ <-]. simpl. eauto.
Qed.

Lemma wf_wait_for_success_resume tid w w' :
  wait_for_success_resume tid w = Some w' → wf w → wf w'.
Proof.
  intros H [Hrem Hlk Htk Hsc].
  apply wait_for_success_resume_spec in H as (r & ws & Ht & Hr & Hf & ->).
  split; simpl; [done | done | | done].
  intros t tk Ht'.
  apply list_lookup_insert_Some in Ht' as [(_ & <- & _) | [_ Ht']];
    [| by eapply Htk].
  simpl. eauto.
Qed.

Lemma wf_step o w w' : step o w = Some w' → wf w → wf w'.
Proof.
  destruct o; simpl.
  - unfold SuccessCondition_lock.
    destruct (ensure_wait_state w) as [r w1] eqn:E. intros H Hwf.
    eapply wf_Lock_new; [done |].
    replace w1 with (ensure_wait_state w).2 by (by rewrite E).
    by apply wf_ensure_wait_state.
  - apply wf_Lock_release.
  - apply wf_Lock_move_assign.
  - unfold Lock_move_construct. intros H Hwf.
    eapply wf_Lock_move_assign; [done | by apply wf_push_null].
  - apply wf_Lock_release.
  - apply wf_wait_for_success.
  - apply wf_wait_for_success_resume.
Qed.

Lemma wf_run ops : ∀ w w', run ops w = Some w' → wf w → wf w'.
Proof.
  induction ops as [| o ops IH]; simpl; intros w w' H Hwf.
  - by simplify_eq.
  - destruct (step o w) as [w1 |] eqn:E; [| done].
    eapply IH; [done | by eapply wf_step].
Qed.

(** ** Races in which nobody succeeds *)

Lemma Lock_release_false_success l w w' r ws' :
  Lock_release l false w = Some w' → heap w' !! r = Some ws' →
  ∃ ws, heap w !! r = Some ws ∧ success ws = success ws'.
Proof.
  unfold Lock_release. intros H Hr.
  destruct (locks w !! l) as [[r0 |] |] eqn:Hl; simplify_eq; [| eauto].
  destruct (heap w !! r0) as [ws0 |] eqn:Hr0; simplify_eq. simpl in Hr.
  apply list_lookup_insert_Some in Hr as [(? & ? & _) | [_ Hr]];
    simplify_eq; [| eauto].
  exists ws0. by rewrite release_state_success.
Qed.

(** The success flag of a race is only ever set by a [release(true)] on one
    of its locks. *)
Lemma step_success_inv o w w' r ws' :
  step o w = Some w' → heap w' !! r = Some ws' → success ws' = true →
  (∃ ws, heap w !! r = Some ws ∧ success ws = true) ∨
  reports_success r w o = true.
Proof.
  destruct o; simpl; intros H Hr Hs.
  - left. unfold_ops.
    repeat case_match; simplify_eq; simpl in *.
    + apply list_lookup_insert_Some in Hr as [(? & ? & _) | [_ Hr]];
        simplify_eq; simpl in *; eauto.
    + apply list_lookup_insert_Some in Hr as [(? & ? & _) | [_ Hr]];
        simplify_eq; simpl in *.
      * rewrite lookup_app_r, Nat.sub_diag in * by lia.
        simpl in *. by simplify_eq.
      * apply lookup_app_Some in Hr as [Hr | [_ Hr]]; [eauto |].
        apply list_lookup_singleton_Some in Hr as [_ ?]. by simplify_eq.
  - destruct succ.
    + unfold Lock_release in H.
      destruct (locks w !! l) as [[r0 |] |] eqn:Hl; simplify_eq; [| eauto].
      destruct (heap w !! r0) as [ws0 |] eqn:Hr0; simplify_eq. simpl in Hr.
      apply list_lookup_insert_Some in Hr as [(? & _ & _) | [_ Hr]];
        simplify_eq; [| eauto].
      right. by rewrite Nat.eqb_refl.
    + left. destruct (Lock_release_false_success _ _ _ _ _ H Hr) as (ws & ? & E).
      exists ws. by rewrite E.
  - left. unfold Lock_move_assign in H.
    destruct (Lock_release this false w) as [w1 |] eqn:E; [| done].
    destruct (locks w1 !! other); simplify_eq. simpl in Hr.
    destruct (Lock_release_false_success _ _ _ _ _ E Hr) as (ws & ? & E').
    exists ws. by rewrite E'.
  - left. unfold Lock_move_construct, Lock_move_assign in H.
    destruct (Lock_release _ false _) as [w1 |] eqn:E; [| done].
    destruct (locks w1 !! other); simplify_eq. simpl in Hr.
    destruct (Lock_release_false_success _ _ _ _ _ E Hr) as (ws & ? & E').
    exists ws. by rewrite E'.
  - left. destruct (Lock_release_false_success _ _ _ _ _ H Hr) as (ws & ? & E).
    exists ws. by rewrite E.
  - left.
    apply wait_for_success_spec in H as (ws & st & Hr0 & _ & _ & _ & Hcase).
    simpl in *.
    assert (∀ ws1, heap (ensure_wait_state w).2 !! r = Some ws1 →
                   success ws1 = true →
                   ∃ ws, heap w !! r = Some ws ∧ success ws = true) as Hens.
    { intros ws1 H1 H2.
      destruct (ensure_wait_state_spec w) as [[_ E] | (_ & _ & E)];
        rewrite E in H1; [eauto |]. simpl in H1.
      apply lookup_app_Some in H1 as [H1 | [_ H1]]; [eauto |].
      apply list_lookup_singleton_Some in H1 as [_ ?]. by simplify_eq. }
    destruct Hcase as [(_ & _ & _ & Hh) | (_ & Hh & _)]; rewrite Hh in Hr.
    + apply list_lookup_insert_Some in Hr as [(? & ? & _) | [_ Hr]];
        simplify_eq; simpl in *; eauto.
    + eauto.
  - left. apply wait_for_success_resume_spec in H as (? & ? & _ & _ & _ & ->).
    eauto.
Qed.

Lemma run_undecided r ops :
  ∀ w w', undecided r w → failing_race r ops w = true →
          run ops w = Some w' → undecided r w'.
Proof.
  induction ops as [| o ops IH]; simpl; intros w w' Hu Hf H.
  - by simplify_eq.
  - destruct (step o w) as [w1 |] eqn:E; [| done].
    apply andb_true_iff in Hf as [Hf1 Hf2]. apply negb_true_iff in Hf1.
    eapply IH; [| done | done].
    intros ws1 Hr1. destruct (success ws1) eqn:Hs1; [| done].
    destruct (step_success_inv _ _ _ _ _ E Hr1 Hs1) as [(ws & Hr & Hs) | ?];
      [| congruence].
    rewrite (Hu _ Hr) in Hs. done.
Qed.

(** A wait state without locks is not blocked. *)
Lemma wf_no_lock_not_blocked w r ws :
  wf w → holders r (locks w) = 0 → heap w !! r = Some ws →
  blocked ws = false.
Proof.
  intros Hwf Hno Hr. unfold blocked.
  by rewrite (wf_remaining _ Hwf _ _ Hr), Hno.
Qed.

(** C2: a race whose locks have all been consumed, none of them by
    [release(true)] (that is: by [release(false)], by destruction, or by
    being overwritten in a move), makes [wait_for_success] return [false].
    In any execution from a fresh coordinator that reaches such a state,
    every call on that race has returned [false] or is suspended, has been
    woken and returns [false] when resumed; and a call made now on that race
    returns [false] at once.  The race may have any number of locks,
    including none. *)
Theorem all_failed_wait_returns_false ops w r :
  run ops init = Some w →
  failing_race r ops init = true →
  holders r (locks w) = 0 →
  (∀ t tk, tasks w !! t = Some tk → wait_state tk = r →
     status tk = Returned false ∨
     (status tk = Suspended ∧
      ∃ w', step (OpResume t) w = Some w' ∧
            tasks w' !! t = Some (mkTask r (Returned false)))) ∧
  (sc_wait_state w = Some r →
     ∃ w', step OpWait w = Some w' ∧
           tasks w' !! length (tasks w) = Some (mkTask r (Returned false))).
Proof.
  intros Hrun Hfail Hno.
  pose proof (wf_run _ _ _ Hrun wf_init) as Hwf.
  assert (undecided r w) as Hu.
  { eapply run_undecided; [| done | done]. intros ws. simpl. by rewrite lookup_nil. }
  split.
  - intros t [r' st] Ht Hw. simpl in Hw. subst r'.
    destruct (wf_tasks _ Hwf _ _ Ht) as (ws & Hr & Hst). simpl in *.
    pose proof (Hu _ Hr) as Hs.
    destruct st as [| b].
    + right. split; [done |].
      rewrite (wf_no_lock_not_blocked _ _ _ Hwf Hno Hr) in Hst.
      destruct Hst as [Hf | ?]; [| done].
      unfold wait_for_success_resume. rewrite Ht, Hr, Hf, Hs.
      eexists. split; [done |]. simpl.
      apply list_lookup_insert_eq. by eapply lookup_lt_Some.
    + left. destruct b; [| done]. rewrite Hst in Hs; done.
  - intros Hsc. simpl.
    destruct (lookup_lt_is_Some_2 (heap w) r) as [ws Hr];
      [by eapply wf_sc |].
    unfold wait_for_success, ensure_wait_state. rewrite Hsc. simpl.
    rewrite Hr, (wf_no_lock_not_blocked _ _ _ Hwf Hno Hr), (Hu _ Hr).
    eexists. split; [done |]. simpl.
    rewrite lookup_app_r by lia. by rewrite Nat.sub_diag.
Qed.

Lemma all_failed_wait_returns_false_witness :
  run failing_run init = Some race2_failed ∧
  failing_race 0 failing_run init = true ∧
  holders 0 (locks race2_failed) = 0 ∧
  (∀ t tk, tasks race2_failed !! t = Some tk → wait_state tk = 0 →
     status tk = Returned false ∨
     (status tk = Suspended ∧
      ∃ w', step (OpResume t) race2_failed = Some w' ∧
            tasks w' !! t = Some (mkTask 0 (Returned false)))) ∧
  (sc_wait_state race2_failed = Some 0 →
     ∃ w', step OpWait race2_failed = Some w' ∧
           tasks w' !! length (tasks race2_failed) =
             Some (mkTask 0 (Returned false))).
Proof.
  split; [reflexivity |]. split; [reflexivity |]. split; [reflexivity |].
  apply (all_failed_wait_returns_false failing_run race2_failed 0);
    reflexivity.
Defined.

(** ** Consuming a lock *)

Lemma Lock_release_bound l b w r ws :
  locks w !! l = Some (Some r) → heap w !! r = Some ws →
  Lock_release l b w =
    Some (set_locks (<[l := None]> (locks w))
            (set_heap (<[r := release_state b ws]> (heap w)) w)).
Proof. unfold Lock_release. by intros -> ->. Qed.

Lemma Lock_release_null l b w :
  locks w !! l = Some None → Lock_release l b w = Some w.
Proof. unfold Lock_release. by intros ->. Qed.

(** What a release takes off the counter of race [r]: one if the lock was
    bound to [r], nothing otherwise. *)
Lemma Lock_release_remaining l b w w' o r ws :
  Lock_release l b w = Some w' → locks w !! l = Some o →
  heap w !! r = Some ws →
  ∃ ws', heap w' !! r = Some ws' ∧
         remaining_locks ws' = (remaining_locks ws - Z.of_nat (bound_to r o))%Z.
Proof.
  unfold Lock_release. intros H Hl Hr. rewrite Hl in H.
  destruct o as [r0 |]; simplify_eq; simpl; [| exists ws; split; [done | lia]].
  destruct (heap w !! r0) as [ws0 |] eqn:Hr0; simplify_eq. simpl.
  destruct (Nat.eqb_spec r r0) as [-> | Hne].
  - simplify_eq. eexists. split.
    + apply list_lookup_insert_eq. by eapply lookup_lt_Some.
    + rewrite release_state_remaining. lia.
  - exists ws. rewrite list_lookup_insert_ne by done. split; [done | lia].
Qed.

Lemma Lock_move_assign_spec this other w w' :
  Lock_move_assign this other w = Some w' →
  ∃ w1 o, Lock_release this false w = Some w1 ∧ locks w1 !! other = Some o ∧
          w' = set_locks (<[other := None]> (<[this := o]> (locks w1))) w1.
Proof.
  unfold Lock_move_assign. intros H.
  destruct (Lock_release this false w) as [w1 |]; [| done].
  destruct (locks w1 !! other) as [o |] eqn:Ho; simplify_eq. eauto.
Qed.

Lemma Lock_move_assign_source_null this other w w' :
  Lock_move_assign this other w = Some w' → locks w' !! other = Some None.
Proof.
  intros H. apply Lock_move_assign_spec in H as (w1 & o & _ & Ho & ->).
  simpl. apply list_lookup_insert_eq. rewrite length_insert.
  by eapply lookup_lt_Some.
Qed.

(** C4: every lock takes exactly one off [remaining_locks], however it is
    consumed.  In every state that a program can reach from a fresh
    coordinator: (1) the counter of each race equals the number of lock
    objects still bound to it, so each acquired lock has been counted down
    once when it was consumed and not at all before; (2) an explicit
    [release] or the destruction of a bound lock takes exactly one off the
    counter of its race, touches no other race and leaves the object null,
    after which a second [release] or the destructor changes nothing;
    (3) a move assignment takes exactly one off the counter of the race of
    the overwritten target (nothing if the target was null) and nothing for
    the source, which it leaves null; (4) a move construction changes no
    counter and leaves its source null. *)
Theorem lock_decrements_exactly_once ops w :
  run ops init = Some w →
  (∀ r ws, heap w !! r = Some ws →
           remaining_locks ws = Z.of_nat (holders r (locks w))) ∧
  (∀ l r b, locks w !! l = Some (Some r) →
     ∃ ws w' ws',
       heap w !! r = Some ws ∧
       step (OpRelease l b) w = Some w' ∧
       (b = false → step (OpDestroy l) w = Some w') ∧
       heap w' !! r = Some ws' ∧
       remaining_locks ws' = (remaining_locks ws - 1)%Z ∧
       (∀ r0, r0 ≠ r → heap w' !! r0 = heap w !! r0) ∧
       locks w' !! l = Some None ∧
       (∀ b', step (OpRelease l b') w' = Some w') ∧
       step (OpDestroy l) w' = Some w') ∧
  (∀ this other o w', locks w !! this = Some o →
     step (OpMoveAssign this other) w = Some w' →
     locks w' !! other = Some None ∧
     ∀ r ws, heap w !! r = Some ws →
       ∃ ws', heap w' !! r = Some ws' ∧
              remaining_locks ws' =
                (remaining_locks ws - Z.of_nat (bound_to r o))%Z) ∧
  (∀ other w', step (OpMoveConstruct other) w = Some w' →
     heap w' = heap w ∧ locks w' !! other = Some None).
Proof.
  intros Hrun. pose proof (wf_run _ _ _ Hrun wf_init) as Hwf.
  split; [by apply wf_remaining |]. split; [| split].
  - intros l r b Hl.
    destruct (lookup_lt_is_Some_2 (heap w) r) as [ws Hr];
      [by eapply wf_locks |].
    pose proof (lookup_lt_Some _ _ _ Hr) as Hlt.
    pose proof (lookup_lt_Some _ _ _ Hl) as Hlt'.
    exists ws. eexists. exists (release_state b ws). simpl.
    split; [done |]. split; [by apply Lock_release_bound |].
    split; [intros ->; by apply Lock_release_bound |]. simpl.
    split; [by apply list_lookup_insert_eq |].
    split; [apply release_state_remaining |].
    split; [intros r0 Hne; by apply list_lookup_insert_ne |].
    assert (<[l := None]> (locks w) !! l = Some None) as Hnull
      by (by apply list_lookup_insert_eq).
    split; [done |].
    split; [intros b' |]; by apply Lock_release_null.
  - intros this other o w' Hthis Hmv. simpl in Hmv.
    split; [by eapply Lock_move_assign_source_null |].
    intros r ws Hr.
    apply Lock_move_assign_spec in Hmv as (w1 & o' & Hrel & _ & ->). simpl.
    by eapply Lock_release_remaining.
  - intros other w' Hmv. simpl in Hmv. unfold Lock_move_construct in Hmv.
    split; [| by eapply Lock_move_assign_source_null].
    apply Lock_move_assign_spec in Hmv as (w1 & o' & Hrel & _ & ->). simpl.
    rewrite Lock_release_null in Hrel; [by simplify_eq |].
    simpl. rewrite lookup_app_r by lia. by rewrite Nat.sub_diag.
Qed.

Lemma lock_decrements_exactly_once_witness :
  run failing_run init = Some race2_failed ∧
  ∀ r ws, heap race2_failed !! r = Some ws →
          remaining_locks ws = Z.of_nat (holders r (locks race2_failed)).
Proof.
  split; [reflexivity |].
  apply (lock_decrements_exactly_once failing_run race2_failed).
  reflexivity.
Defined.

(** C7, as amended: [remaining_locks] is raised only by the acquisition of a
    lock, [SuccessCondition::lock()], which adds exactly one to the counter
    of the coordinator's current race and nothing to the others; no other
    operation (release, move assignment, move construction, destruction,
    [wait_for_success] and its resumption) ever raises the counter of a
    race. *)
Theorem remaining_locks_raised_only_by_lock o w w' r ws :
  step o w = Some w' → heap w !! r = Some ws →
  ∃ ws', heap w' !! r = Some ws' ∧
         match o with
         | OpLock =>
             remaining_locks ws' =
               (remaining_locks ws + Z.of_nat (bound_to r (sc_wait_state w)))%Z
         | _ => (remaining_locks ws' <= remaining_locks ws)%Z
         end.
Proof.
  intros Hstep Hr. pose proof (lookup_lt_Some _ _ _ Hr) as Hlt.
  assert (∀ l b w1, Lock_release l b w = Some w1 →
            ∃ ws', heap w1 !! r = Some ws' ∧
                   (remaining_locks ws' <= remaining_locks ws)%Z) as Hrel.
  { intros l b w1 H.
    destruct (locks w !! l) as [o' |] eqn:Hl;
      [| unfold Lock_release in H; by rewrite Hl in H].
    destruct (Lock_release_remaining _ _ _ _ _ _ _ H Hl Hr) as (ws' & ? & ?).
    exists ws'. split; [done | lia]. }
  destruct o; simpl in Hstep; eauto.
  - unfold SuccessCondition_lock, ensure_wait_state, Lock_new in Hstep.
    destruct (sc_wait_state w) as [r0 |] eqn:Hsc; simpl in *.
    + destruct (heap w !! r0) as [ws0 |] eqn:Hr0; simplify_eq. simpl.
      destruct (Nat.eqb_spec r r0) as [-> | Hne].
      * simplify_eq. eexists. split; [by apply list_lookup_insert_eq |].
        simpl. lia.
      * exists ws. rewrite list_lookup_insert_ne by done. split; [done | lia].
    + rewrite lookup_app_r, Nat.sub_diag in Hstep by lia. simpl in Hstep.
      simplify_eq. simpl. exists ws. split; [| lia].
      rewrite list_lookup_insert_ne by lia. by apply lookup_app_l_Some.
  - apply Lock_move_assign_spec in Hstep as (w1 & o' & H & _ & ->). simpl.
    eauto.
  - unfold Lock_move_construct in Hstep.
    apply Lock_move_assign_spec in Hstep as (w1 & o' & H & _ & ->). simpl.
    rewrite Lock_release_null in H; [simplify_eq |]; simpl.
    + exists ws. split; [done | lia].
    + rewrite lookup_app_r by lia. by rewrite Nat.sub_diag.
  - apply wait_for_success_spec in Hstep as (ws0 & st & Hr0 & _ & _ & _ & Hc).
    simpl in *.
    assert (heap (ensure_wait_state w).2 !! r = Some ws) as Hr'.
    { destruct (ensure_wait_state_spec w) as [[_ ->] | (_ & _ & ->)]; [done |].
      simpl. by apply lookup_app_l_Some. }
    pose proof (lookup_lt_Some _ _ _ Hr') as Hlt'.
    destruct Hc as [(_ & _ & _ & ->) | (_ & -> & _)];
      [| exists ws; split; [done | lia]].
    destruct (decide ((ensure_wait_state w).1 = r)) as [E | Hne].
    + rewrite E in *. simplify_eq. eexists.
      split; [by apply list_lookup_insert_eq | simpl; lia].
    + exists ws. rewrite list_lookup_insert_ne by done. split; [done | lia].
  - apply wait_for_success_resume_spec in Hstep as (? & ? & _ & _ & _ & ->).
    exists ws. split; [done | lia].
Qed.

Lemma remaining_locks_raised_only_by_lock_witness :
  step OpLock race2 = Some (default init (step OpLock race2)) ∧
  heap race2 !! 0 = Some (mkWaitState ConditionVariable.create 2 false) ∧
  ∃ ws', heap (default init (step OpLock race2)) !! 0 = Some ws' ∧
         remaining_locks ws' =
           (2 + Z.of_nat (bound_to 0 (sc_wait_state race2)))%Z.
Proof.
  split; [reflexivity |]. split; [reflexivity |].
  apply (remaining_locks_raised_only_by_lock OpLock race2
           (default init (step OpLock race2)) 0
           (mkWaitState ConditionVariable.create 2 false)); reflexivity.
Defined.

(** C7 as stated fails, also on the states a program can reach: acquiring a
    second lock on a race raises its counter from 1 to 2. *)
Lemma remaining_locks_can_increase :
  ¬ (∀ ops o w w' r ws ws',
       run ops init = Some w → step o w = Some w' →
       heap w !! r = Some ws → heap w' !! r = Some ws' →
       (remaining_locks ws' <= remaining_locks ws)%Z).
Proof.
  intros H.
  specialize (H [OpLock] OpLock
    (mkWorld [mkWaitState ConditionVariable.create 1 false] (Some 0) [Some 0] [])
    (mkWorld [mkWaitState ConditionVariable.create 2 false] (Some 0)
             [Some 0; Some 0] [])
    0 (mkWaitState ConditionVariable.create 1 false)
    (mkWaitState ConditionVariable.create 2 false)
    eq_refl eq_refl eq_refl eq_refl).
  simpl in H. lia.
Qed.

(** ** The coordinator's pointer *)

Lemma step_sc_null o w w' :
  acquires_lock o = false → step o w = Some w' → sc_wait_state w = None →
  sc_wait_state w' = None.
Proof.
  intros Hne H Hsc. destruct o; simpl in H; try done.
  - apply Lock_release_tasks in H as [_ ->]. done.
  - apply Lock_move_assign_spec in H as (w1 & o' & H & _ & ->). simpl.
    apply Lock_release_tasks in H as [_ ->]. done.
  - unfold Lock_move_construct in H.
    apply Lock_move_assign_spec in H as (w1 & o' & H & _ & ->). simpl.
    apply Lock_release_tasks in H as [_ ->]. done.
  - apply Lock_release_tasks in H as [_ ->]. done.
  - by apply wait_for_success_spec in H as (_ & _ & _ & _ & ? & _).
  - by apply wait_for_success_resume_spec in H as (? & ? & _ & _ & _ & ->).
Qed.

Lemma run_sc_null ops :
  ∀ w w', existsb acquires_lock ops = false → run ops w = Some w' →
          sc_wait_state w = None → sc_wait_state w' = None.
Proof.
  induction ops as [| o ops IH]; simpl; intros w w' Hno H Hsc.
  - by simplify_eq.
  - destruct (step o w) as [w1 |] eqn:E; [| done].
    apply orb_false_iff in Hno as [Hne Hno].
    eapply IH; [done | done |]. eapply step_sc_null; [| done | done]. done.
Qed.

(** [wait_for_success] on a coordinator whose pointer is null: a wait state
    is made, found not blocked, and the call returns [false] without
    suspending. *)
Lemma wait_for_success_null w :
  sc_wait_state w = None →
  wait_for_success w =
    Some (mkWorld (heap w ++ [WaitState_new]) None (locks w)
            (tasks w ++ [mkTask (length (heap w)) (Returned false)])).
Proof.
  intros Hsc. unfold wait_for_success, ensure_wait_state. rewrite Hsc. simpl.
  rewrite lookup_app_r by lia. by rewrite Nat.sub_diag.
Qed.

(** [lock()] on a coordinator whose pointer is null starts a race of its
    own. *)
Lemma SuccessCondition_lock_null w :
  sc_wait_state w = None →
  SuccessCondition_lock w =
    Some (mkWorld
            (heap w ++ [mkWaitState ConditionVariable.create 1 false])
            (Some (length (heap w)))
            (locks w ++ [Some (length (heap w))]) (tasks w)).
Proof.
  intros Hsc. unfold SuccessCondition_lock, ensure_wait_state, Lock_new.
  rewrite Hsc. simpl. rewrite lookup_app_r by lia. rewrite Nat.sub_diag. simpl.
  unfold set_locks, set_heap. simpl. do 2 f_equal.
  replace (length (heap w)) with (length (heap w) + 0) at 1 by lia.
  by rewrite insert_app_r.
Qed.

(** C3: on a coordinator on which no lock has ever been acquired, whatever
    else has been done with it, [wait_for_success] returns [false] at once:
    the wait state it makes is not blocked, so the call does not suspend. *)
Theorem wait_without_locks_returns_false ops w :
  existsb acquires_lock ops = false → run ops init = Some w →
  step OpWait w =
    Some (mkWorld (heap w ++ [WaitState_new]) None (locks w)
            (tasks w ++ [mkTask (length (heap w)) (Returned false)])).
Proof.
  intros Hno Hrun. simpl. apply wait_for_success_null.
  by eapply run_sc_null.
Qed.

Lemma wait_without_locks_returns_false_witness :
  existsb acquires_lock [OpWait; OpWait] = false ∧
  run [OpWait; OpWait] init = Some idle2 ∧
  step OpWait idle2 =
    Some (mkWorld (heap idle2 ++ [WaitState_new]) None (locks idle2)
            (tasks idle2 ++ [mkTask (length (heap idle2)) (Returned false)])).
Proof.
  split; [reflexivity |]. split; [reflexivity |].
  apply (wait_without_locks_returns_false [OpWait; OpWait] idle2);
    reflexivity.
Defined.

(** C9: [wait_for_success] consumes the coordinator's race.  From the moment
    a call has taken the race (and so also after it has returned), as long
    as no lock is acquired: the coordinator's pointer is null; a further
    call of [wait_for_success] returns [false] at once; and [lock()] starts
    a race on a wait state of its own, with one participant and no success
    recorded whatever the outcome of the earlier races, which on a
    coordinator of a reachable state no release of an earlier lock, with
    either argument, can change. *)
Theorem wait_resets_coordinator ops0 w w1 ops w2 :
  run ops0 init = Some w →
  step OpWait w = Some w1 →
  existsb acquires_lock ops = false → run ops w1 = Some w2 →
  sc_wait_state w2 = None ∧
  step OpWait w2 =
    Some (mkWorld (heap w2 ++ [WaitState_new]) None (locks w2)
            (tasks w2 ++ [mkTask (length (heap w2)) (Returned false)])) ∧
  (∃ w3,
     step OpLock w2 = Some w3 ∧
     heap w2 !! length (heap w2) = None ∧
     heap w3 = heap w2 ++ [mkWaitState ConditionVariable.create 1 false] ∧
     sc_wait_state w3 = Some (length (heap w2)) ∧
     locks w3 = locks w2 ++ [Some (length (heap w2))] ∧
     ∀ l b w4, l < length (locks w2) →
               step (OpRelease l b) w3 = Some w4 →
               heap w4 !! length (heap w2) = heap w3 !! length (heap w2)).
Proof.
  intros Hrun0 Hwait Hno Hrun. simpl in *.
  assert (sc_wait_state w2 = None) as Hsc.
  { eapply run_sc_null; [done | done |].
    by apply wait_for_success_spec in Hwait as (_ & _ & _ & _ & ? & _). }
  assert (wf w2) as Hwf.
  { eapply wf_run; [done |]. eapply wf_wait_for_success; [done |].
    eapply wf_run; [done | apply wf_init]. }
  split; [done |]. split; [by apply wait_for_success_null |].
  eexists. split; [by apply SuccessCondition_lock_null |]. simpl.
  split; [apply lookup_ge_None; lia |]. repeat split.
  intros l b w4 Hl Hrel. unfold Lock_release in Hrel. simpl in Hrel.
  rewrite lookup_app_l in Hrel by done.
  destruct (locks w2 !! l) as [[r |] |] eqn:El; simplify_eq; [| done].
  pose proof (wf_locks _ Hwf _ _ El) as Hr.
  case_match; simplify_eq. simpl.
  apply list_lookup_insert_ne. lia.
Qed.

Lemma wait_resets_coordinator_witness :
  run won_run init = Some race1_won ∧
  step OpWait race1_won = Some race1_waited ∧
  existsb acquires_lock [OpWait] = false ∧
  run [OpWait] race1_waited = Some (default init (run [OpWait] race1_waited)) ∧
  sc_wait_state (default init (run [OpWait] race1_waited)) = None.
Proof.
  split; [reflexivity |]. split; [reflexivity |]. split; [reflexivity |].
  split; [reflexivity |].
  apply (wait_resets_coordinator won_run race1_won race1_waited [OpWait]
           (default init (run [OpWait] race1_waited))); reflexivity.
Defined.

(** C10: move assignment into a lock that still holds a race consumes that
    race's participation exactly as [release(false)] on the target does (the
    heap after the move is the heap after that release), and leaves the
    moved-from lock null: the target takes over the source's pointer, and a
    [release] with either argument or the destruction of the source leaves
    the whole state as it is. *)
Theorem move_assign_releases_target_and_empties_source this other r w w' :
  locks w !! this = Some (Some r) →
  step (OpMoveAssign this other) w = Some w' →
  ∃ w1,
    step (OpRelease this false) w = Some w1 ∧
    heap w' = heap w1 ∧
    sc_wait_state w' = sc_wait_state w1 ∧ tasks w' = tasks w1 ∧
    (this ≠ other → locks w' !! this = locks w !! other) ∧
    locks w' !! other = Some None ∧
    (∀ b, step (OpRelease other b) w' = Some w') ∧
    step (OpDestroy other) w' = Some w'.
Proof.
  simpl. intros Hthis Hmv.
  pose proof (Lock_move_assign_source_null _ _ _ _ Hmv) as Hnull.
  apply Lock_move_assign_spec in Hmv as (w1 & o & Hrel & Ho & ->).
  exists w1. simpl. repeat split; try done.
  - intros Hne. rewrite list_lookup_insert_ne by done.
    rewrite list_lookup_insert_eq
      by (apply Lock_release_unbinds in Hrel; by eapply lookup_lt_Some).
    rewrite <- Ho. unfold Lock_release in Hrel. rewrite Hthis in Hrel.
    case_match; simplify_eq. simpl. by rewrite list_lookup_insert_ne.
  - intros b. by apply Lock_release_null.
  - by apply Lock_release_null.
Qed.

Lemma move_assign_releases_target_and_empties_source_witness :
  locks race3 !! 0 = Some (Some 0) ∧
  step (OpMoveAssign 0 1) race3 =
    Some (default init (step (OpMoveAssign 0 1) race3)) ∧
  ∃ w1,
    step (OpRelease 0 false) race3 = Some w1 ∧
    heap (default init (step (OpMoveAssign 0 1) race3)) = heap w1 ∧
    sc_wait_state (default init (step (OpMoveAssign 0 1) race3)) =
      sc_wait_state w1 ∧
    tasks (default init (step (OpMoveAssign 0 1) race3)) = tasks w1 ∧
    (0 ≠ 1 → locks (default init (step (OpMoveAssign 0 1) race3)) !! 0 =
             locks race3 !! 1) ∧
    locks (default init (step (OpMoveAssign 0 1) race3)) !! 1 = Some None ∧
    (∀ b, step (OpRelease 1 b) (default init (step (OpMoveAssign 0 1) race3)) =
          Some (default init (step (OpMoveAssign 0 1) race3))) ∧
    step (OpDestroy 1) (default init (step (OpMoveAssign 0 1) race3)) =
      Some (default init (step (OpMoveAssign 0 1) race3)).
Proof.
  split; [reflexivity |]. split; [reflexivity |].
  apply (move_assign_releases_target_and_empties_source 0 1 0 race3
           (default init (step (OpMoveAssign 0 1) race3))); reflexivity.
Defined.

(** ** The result of connect_to_host *)

Lemma attempts_slot transport_open cancel_signal addrs :
  ∀ k w slot w' slot',
    HostConnector.attempts transport_open cancel_signal k addrs (w, slot) = (w', slot') →
    ∀ c, slot' = Some c →
         slot = Some c ∨ ∃ a, a ∈ addrs ∧ transport_open a = inr c.
Proof.
  induction addrs as [| a addrs IH]; simpl; intros k w slot w' slot' H c Hc.
  - simplify_eq. by left.
  - destruct (HostConnector.cancel_fired cancel_signal k) eqn:Hk.
    + destruct (IH _ _ _ _ _ H c Hc) as [? | (a' & ? & ?)]; [by left |].
      right. exists a'. split; [apply elem_of_cons; by right | done].
    + destruct (transport_open a) as [e | c0] eqn:Ha.
      * destruct (IH _ _ _ _ _ H c Hc) as [? | (a' & ? & ?)]; [by left |].
        right. exists a'. split; [apply elem_of_cons; by right | done].
      * destruct (IH _ _ _ _ _ H c Hc) as [Hs | (a' & ? & ?)].
        -- destruct slot; simplify_eq; [by left |].
           right. exists a. split; [apply elem_of_cons; by left | done].
        -- right. exists a'. split; [apply elem_of_cons; by right | done].
Qed.

(** C8: [connect_to_host] returns exactly one of a connection or an error
    (its result is a sum); a returned connection is one that the transport
    layer opened for one of the resolved candidates, and an error is
    [ResolutionFailure], [ConnectionFailed] or [Cancelled], never the
    per-candidate [ConnectError]. *)
Theorem connect_to_host_result resolve transport_open cancel_signal host port :
  match HostConnector.connect_to_host resolve transport_open cancel_signal
          host port with
  | inr c => ∃ addrs a, resolve host port = inr addrs ∧ a ∈ addrs ∧
                        transport_open a = inr c
  | inl e => e = HostConnector.ResolutionFailure ∨
             e = HostConnector.ConnectionFailed ∨
             e = HostConnector.Cancelled
  end.
Proof.
  unfold HostConnector.connect_to_host.
  destruct (resolve host port) as [e | [| a addrs]] eqn:Hres; [by left .. |].
  destruct (HostConnector.attempts _ _ _ _ _) as [w3 slot] eqn:Hatt.
  match goal with
  | |- context [if ?b then inl HostConnector.Cancelled else _] =>
      set (fail := if b then inl HostConnector.Cancelled
                   else inl HostConnector.ConnectionFailed
                   : HostConnector.Error + HostConnector.Connection)
  end.
  assert (match fail with
          | inr _ => False
          | inl e => e = HostConnector.ResolutionFailure ∨
                     e = HostConnector.ConnectionFailed ∨
                     e = HostConnector.Cancelled
          end) as Hfail
    by (unfold fail; destruct (HostConnector.cancel_fired _ _); auto).
  clearbody fail.
  destruct (tasks _ !! 0) as [[r [| [|]]] |]; try (by destruct fail).
  destruct slot as [c |]; [| by destruct fail].
  destruct (attempts_slot _ _ _ _ _ _ _ _ Hatt _ eq_refl)
    as [? | (a' & ? & ?)]; [done |].
  eauto.
Qed.

(** The scenarios of the spec on three candidates. *)
Example connect_one_succeeds :
  HostConnector.connect_to_host
    (λ _ _, inr [10; 20; 30])
    (λ a, if Nat.eqb a 30 then inr 7 else inl HostConnector.ConnectError)
    None "host" "80" = inr 7.
Proof. reflexivity. Qed.

Example connect_all_fail :
  HostConnector.connect_to_host
    (λ _ _, inr [10; 20; 30]) (λ _, inl HostConnector.ConnectError)
    None "host" "80" = inl HostConnector.ConnectionFailed.
Proof. reflexivity. Qed.

Example connect_cancelled_first :
  HostConnector.connect_to_host
    (λ _ _, inr [10; 20; 30]) (λ a, inr a)
    (Some 0) "host" "80" = inl HostConnector.Cancelled.
Proof. reflexivity. Qed.

Example connect_two_succeed :
  HostConnector.connect_to_host
    (λ _ _, inr [10; 20; 30])
    (λ a, if Nat.eqb a 10 then inl HostConnector.ConnectError else inr a)
    None "host" "80" = inr 20.
Proof. reflexivity. Qed.

Example connect_no_candidate :
  HostConnector.connect_to_host
    (λ _ _, inr []) (λ a, inr a) None "host" "80" =
  inl HostConnector.ResolutionFailure.
Proof. reflexivity. Qed.

(** * Further properties of the coordinator *)

(** ** Bounds of the counter *)

Lemma holders_le_length r (ls : list (option nat)) : holders r ls ≤ length ls.
Proof.
  induction ls as [| o ls IH]; simpl; [lia |].
  destruct o as [r' |]; simpl; [destruct (Nat.eqb r r') |]; lia.
Qed.

(** X1: in every state a program can reach, [remaining_locks] of a wait
    state is never negative and never exceeds the number of lock objects of
    the program. *)
Theorem remaining_locks_bounds ops w r ws :
  run ops init = Some w → heap w !! r = Some ws →
  (0 <= remaining_locks ws <= Z.of_nat (length (locks w)))%Z.
Proof.
  intros Hrun Hr. pose proof (wf_run _ _ _ Hrun wf_init) as Hwf.
  rewrite (wf_remaining _ Hwf _ _ Hr).
  pose proof (holders_le_length r (locks w)). lia.
Qed.

Lemma remaining_locks_bounds_witness :
  run failing_run init = Some race2_failed ∧
  heap race2_failed !! 0 =
    Some (mkWaitState (ConditionVariable.mk true []) 0 false) ∧
  (0 <= 0 <= Z.of_nat (length (locks race2_failed)))%Z.
Proof.
  split; [reflexivity |]. split; [reflexivity |].
  apply (remaining_locks_bounds failing_run race2_failed 0
           (mkWaitState (ConditionVariable.mk true []) 0 false));
    reflexivity.
Defined.

(** ** Moves *)

Lemma set_locks_id w : set_locks (locks w) w = w.
Proof. by destruct w. Qed.

(** X2: a lock move-assigned to itself is consumed as by [release(false)]:
    the operator releases the target before it reads the source, so the
    participation is counted as a failure and the lock is left null. *)
Theorem self_move_assign_is_release_false l w :
  step (OpMoveAssign l l) w = step (OpRelease l false) w.
Proof.
  simpl. unfold Lock_move_assign.
  destruct (Lock_release l false w) as [w1 |] eqn:E; [| done].
  pose proof (Lock_release_unbinds _ _ _ _ E) as Hnull. rewrite Hnull.
  rewrite list_insert_insert_eq, list_insert_id by done.
  by rewrite set_locks_id.
Qed.

Lemma Lock_move_construct_bound l r w :
  locks w !! l = Some (Some r) →
  Lock_move_construct l w =
    Some (set_locks (<[l := None]> (locks w) ++ [Some r]) w).
Proof.
  intros Hl. pose proof (lookup_lt_Some _ _ _ Hl) as Hlt.
  unfold Lock_move_construct, Lock_move_assign.
  rewrite Lock_release_null
    by (simpl; rewrite lookup_app_r by lia; by rewrite Nat.sub_diag).
  simpl. rewrite lookup_app_l by done. rewrite Hl.
  unfold set_locks. simpl. do 2 f_equal.
  replace (length (locks w)) with (length (locks w) + 0) at 1 by lia.
  rewrite insert_app_r. simpl. by rewrite insert_app_l.
Qed.

(** X3: move construction hands the participation over.  Constructing a
    lock from a bound lock leaves every wait state as it is, binds the new
    object to the source's race and nulls the source; releasing the new
    object then changes the heap, the coordinator and the waiting calls
    exactly as releasing the original would have. *)
Theorem move_construct_transfers_lock l r b w w2 :
  locks w !! l = Some (Some r) →
  step (OpRelease l b) w = Some w2 →
  ∃ w1 w3,
    step (OpMoveConstruct l) w = Some w1 ∧
    heap w1 = heap w ∧
    locks w1 = <[l := None]> (locks w) ++ [Some r] ∧
    step (OpRelease (length (locks w)) b) w1 = Some w3 ∧
    heap w3 = heap w2 ∧ sc_wait_state w3 = sc_wait_state w2 ∧
    tasks w3 = tasks w2 ∧
    locks w3 = locks w2 ++ [None].
Proof.
  simpl. intros Hl Hrel.
  pose proof (lookup_lt_Some _ _ _ Hl) as Hlt.
  unfold Lock_release in Hrel. rewrite Hl in Hrel.
  destruct (heap w !! r) as [ws |] eqn:Hr; simplify_eq.
  eexists. eexists. split; [by apply Lock_move_construct_bound |].
  simpl. split; [done |]. split; [done |]. split.
  - apply Lock_release_bound; simpl; [| done].
    rewrite lookup_app_r by (rewrite length_insert; lia).
    by rewrite length_insert, Nat.sub_diag.
  - simpl. repeat split.
    replace (length (locks w))
      with (length (<[l := None]> (locks w)) + 0) at 1
      by (rewrite length_insert; lia).
    by rewrite insert_app_r.
Qed.

Lemma move_construct_transfers_lock_witness :
  locks race3 !! 1 = Some (Some 0) ∧
  step (OpRelease 1 true) race3 = Some race3_won ∧
  ∃ w1 w3,
    step (OpMoveConstruct 1) race3 = Some w1 ∧
    heap w1 = heap race3 ∧
    locks w1 = <[1 := None]> (locks race3) ++ [Some 0] ∧
    step (OpRelease (length (locks race3)) true) w1 = Some w3 ∧
    heap w3 = heap race3_won ∧
    sc_wait_state w3 = sc_wait_state race3_won ∧
    tasks w3 = tasks race3_won ∧
    locks w3 = locks race3_won ++ [None].
Proof.
  split; [reflexivity |]. split; [reflexivity |].
  apply (move_construct_transfers_lock 1 0 true race3 race3_won);
    reflexivity.
Defined.

(** ** No success out of nothing *)

(** X4: [wait_for_success] never returns [true] on a race on which no lock
    was consumed by [release(true)]: in an execution from a fresh
    coordinator without such a release, no call on that race has returned
    [true], at any point and whatever locks are still outstanding. *)
Theorem wait_true_needs_release_true ops w r t tk :
  run ops init = Some w →
  failing_race r ops init = true →
  tasks w !! t = Some tk → wait_state tk = r →
  status tk ≠ Returned true.
Proof.
  intros Hrun Hfail Ht Hw Hst.
  pose proof (wf_run _ _ _ Hrun wf_init) as Hwf.
  assert (undecided r w) as Hu.
  { eapply run_undecided; [| done | done]. intros ws. simpl.
    by rewrite lookup_nil. }
  destruct (wf_tasks _ Hwf _ _ Ht) as (ws & Hr & Hs).
  rewrite Hst in Hs. rewrite Hw in Hr.
  rewrite (Hu _ Hr) in Hs. by specialize (Hs eq_refl).
Qed.

Lemma wait_true_needs_release_true_witness :
  run [OpLock; OpLock; OpWait; OpRelease 0 false] init = Some race2_half ∧
  failing_race 0 [OpLock; OpLock; OpWait; OpRelease 0 false] init = true ∧
  tasks race2_half !! 0 = Some (mkTask 0 Suspended) ∧
  status (mkTask 0 Suspended) ≠ Returned true.
Proof.
  split; [reflexivity |]. split; [reflexivity |]. split; [reflexivity |].
  apply (wait_true_needs_release_true
           [OpLock; OpLock; OpWait; OpRelease 0 false] race2_half 0 0
           (mkTask 0 Suspended)); reflexivity.
Defined.

(** ** Pointers are never dangling *)

Lemma Lock_release_is_Some l b w :
  wf w → l < length (locks w) → is_Some (Lock_release l b w).
Proof.
  intros Hwf Hl. unfold Lock_release.
  destruct (lookup_lt_is_Some_2 _ _ Hl) as [[r |] Ho]; rewrite Ho; [| done].
  destruct (lookup_lt_is_Some_2 (heap w) r) as [ws Hr];
    [by eapply wf_locks |].
  by rewrite Hr.
Qed.

Lemma Lock_move_assign_is_Some this other w :
  wf w → this < length (locks w) → other < length (locks w) →
  is_Some (Lock_move_assign this other w).
Proof.
  intros Hwf Hthis Hother. unfold Lock_move_assign.
  destruct (Lock_release_is_Some this false w Hwf Hthis) as [w1 E].
  rewrite E.
  assert (length (locks w1) = length (locks w)) as Hlen.
  { unfold Lock_release in E.
    repeat case_match; simplify_eq; simpl; by rewrite ?length_insert. }
  destruct (lookup_lt_is_Some_2 (locks w1) other) as [o Ho]; [lia |].
  by rewrite Ho.
Qed.

Lemma ensure_wait_state_lookup w :
  wf w →
  is_Some (heap (ensure_wait_state w).2 !! (ensure_wait_state w).1).
Proof.
  intros Hwf. apply lookup_lt_is_Some_2.
  apply (wf_sc _ (wf_ensure_wait_state w Hwf)).
  by destruct (ensure_wait_state_fields w) as (_ & _ & ?).
Qed.

(** X5: the pointers of a reachable state are never dangling, so that no
    operation fails on a dereference: [lock()] and [wait_for_success] always
    complete (up to the suspension), and so do [release], the destructor,
    move assignment and move construction on the lock objects the program
    has. *)
Theorem operations_complete ops w :
  run ops init = Some w →
  is_Some (step OpLock w) ∧
  is_Some (step OpWait w) ∧
  (∀ l b, l < length (locks w) →
     is_Some (step (OpRelease l b) w) ∧ is_Some (step (OpDestroy l) w)) ∧
  (∀ this other, this < length (locks w) → other < length (locks w) →
     is_Some (step (OpMoveAssign this other) w)) ∧
  (∀ other, other < length (locks w) →
     is_Some (step (OpMoveConstruct other) w)).
Proof.
  intros Hrun. pose proof (wf_run _ _ _ Hrun wf_init) as Hwf. simpl.
  pose proof (ensure_wait_state_lookup w Hwf) as [ws Hens].
  split; [| split; [| split; [| split]]].
  - unfold SuccessCondition_lock, Lock_new.
    destruct (ensure_wait_state w) as [r w1]. simpl in Hens.
    by rewrite Hens.
  - unfold wait_for_success, ConditionVariable.wait.
    destruct (ensure_wait_state w) as [r w1]. simpl in *. rewrite Hens.
    by repeat case_match.
  - intros l b Hl. split; by apply Lock_release_is_Some.
  - intros this other Hthis Hother. by apply Lock_move_assign_is_Some.
  - intros other Hother. unfold Lock_move_construct.
    apply Lock_move_assign_is_Some; simpl.
    + by apply wf_push_null.
    + rewrite length_app. simpl. lia.
    + rewrite length_app. simpl. lia.
Qed.

Lemma operations_complete_witness :
  run [OpLock; OpLock; OpWait; OpRelease 0 false] init = Some race2_half ∧
  is_Some (step OpLock race2_half) ∧ is_Some (step OpWait race2_half).
Proof.
  split; [reflexivity |].
  destruct (operations_complete
              [OpLock; OpLock; OpWait; OpRelease 0 false] race2_half eq_refl)
    as (H1 & H2 & _).
  exact (conj H1 H2).
Defined.

(** ** Races that are being awaited *)

Lemma blocked_release_state succ ws :
  blocked (release_state succ ws) =
    (0 <? remaining_locks ws - 1)%Z && negb (succ || success ws).
Proof. unfold release_state. destruct succ; simpl; by case_match. Qed.

Lemma release_state_blocked_inv succ ws :
  blocked (release_state succ ws) = true → blocked ws = true ∧ succ = false.
Proof.
  rewrite blocked_release_state. intros H.
  apply andb_true_iff in H as [Hrem Hs]. apply Z.ltb_lt in Hrem.
  apply negb_true_iff, orb_false_iff in Hs as [-> Hs].
  split; [| done]. unfold blocked. rewrite Hs, andb_true_r.
  apply Z.ltb_lt. lia.
Qed.

(** A release that leaves the race blocked does not touch the condition. *)
Lemma release_state_blocked_condition succ ws :
  blocked (release_state succ ws) = true →
  condition (release_state succ ws) = condition ws.
Proof.
  unfold release_state.
  destruct succ; simpl; case_match; try done;
    unfold blocked in *; simpl in *; congruence.
Qed.

(** A release keeps "notified exactly when not blocked". *)
Lemma release_state_fired_iff succ ws :
  ConditionVariable.fired (condition ws) = negb (blocked ws) →
  ConditionVariable.fired (condition (release_state succ ws)) =
    negb (blocked (release_state succ ws)).
Proof.
  intros Hf.
  destruct (blocked (release_state succ ws)) eqn:Hb.
  - destruct (release_state_blocked_inv _ _ Hb) as [Hb0 _].
    rewrite (release_state_blocked_condition _ _ Hb), Hf, Hb0. done.
  - destruct (release_state_fired_or_blocked succ ws) as [-> | ?];
      [done | congruence].
Qed.

Lemma awaited_init : awaited init.
Proof. split; simpl; intros *; by rewrite ?lookup_nil. Qed.

Lemma awaited_set_locks ls w : awaited w → awaited (set_locks ls w).
Proof. intros [H1 H2 H3]. by split. Qed.

Lemma awaited_Lock_release l b w w' :
  Lock_release l b w = Some w' → awaited w → awaited w'.
Proof.
  intros H [Hsc Hinj Hsusp].
  destruct (Lock_release_tasks _ _ _ _ H) as [Et Es].
  split; rewrite ?Et, ?Es; try done.
  intros t r Ht. destruct (Hsusp t r Ht) as (ws & Hr & Hf).
  unfold Lock_release in H.
  destruct (locks w !! l) as [[r0 |] |] eqn:Hl; simplify_eq; [| eauto].
  destruct (heap w !! r0) as [ws0 |] eqn:Hr0; simplify_eq. simpl.
  destruct (decide (r0 = r)) as [-> | Hne].
  - simplify_eq. eexists. split.
    + apply list_lookup_insert_eq. by eapply lookup_lt_Some.
    + by apply release_state_fired_iff.
  - exists ws. by rewrite list_lookup_insert_ne.
Qed.

Lemma awaited_ensure_wait_state w :
  wf w → awaited w → awaited (ensure_wait_state w).2.
Proof.
  intros Hwf Haw.
  destruct (ensure_wait_state_spec w) as [[_ ->] | (_ & _ & ->)]; [done |].
  destruct Haw as [Hsc Hinj Hsusp]. split; simpl; [| done |].
  - intros t tk Ht E. simplify_eq.
    destruct (wf_tasks _ Hwf _ _ Ht) as (ws & Hr & _).
    apply lookup_lt_Some in Hr. lia.
  - intros t r Ht. destruct (Hsusp t r Ht) as (ws & Hr & Hf).
    exists ws. split; [by apply lookup_app_l_Some | done].
Qed.

(** [Lock]'s constructor, called on the coordinator's own pointer. *)
Lemma awaited_Lock_new r0 w w' :
  sc_wait_state w = Some r0 → Lock_new r0 w = Some w' →
  awaited w → awaited w'.
Proof.
  unfold Lock_new. intros Hsc0 H [Hsc Hinj Hsusp].
  destruct (heap w !! r0) as [ws0 |] eqn:Hr0; simplify_eq.
  split; simpl; [done | done |].
  intros t r Ht. destruct (Hsusp t r Ht) as (ws & Hr & Hf).
  exists ws. split; [| done].
  rewrite list_lookup_insert_ne; [done |].
  intros ->. by apply (Hsc t _ Ht).
Qed.

Lemma awaited_Lock_move_assign this other w w' :
  Lock_move_assign this other w = Some w' → awaited w → awaited w'.
Proof.
  intros H Haw.
  apply Lock_move_assign_spec in H as (w1 & o & Hrel & _ & ->).
  apply awaited_set_locks. by eapply awaited_Lock_release.
Qed.

Lemma awaited_wait_for_success w w' :
  wait_for_success w = Some w' → wf w → awaited w → awaited w'.
Proof.
  intros H Hwf Haw.
  apply wait_for_success_spec in H as (ws & st & Hr & Ht & Hnull & _ & Hcase).
  simpl in *.
  destruct (ensure_wait_state_fields w) as (Et & _ & Es).
  destruct (awaited_ensure_wait_state w Hwf Haw) as [Hsc Hinj Hsusp].
  rewrite Et in Hsc, Hinj, Hsusp. rewrite Es in Hsc.
  set (r0 := (ensure_wait_state w).1) in *.
  set (h := heap (ensure_wait_state w).2) in *.
  pose proof (lookup_lt_Some _ _ _ Hr) as Hlt.
  assert (∀ t tk, tasks w !! t = Some tk → wait_state tk ≠ r0) as Hfresh.
  { intros t tk Htk E. apply (Hsc t tk Htk). by rewrite E. }
  split; rewrite ?Ht, ?Hnull; [done | |].
  - intros t1 t2 tk1 tk2 H1 H2 E.
    apply lookup_app_Some in H1 as [H1 | [Hge1 H1]];
      apply lookup_app_Some in H2 as [H2 | [Hge2 H2]].
    + by eapply Hinj.
    + apply list_lookup_singleton_Some in H2 as [_ <-]. simpl in E.
      by destruct (Hfresh _ _ H1).
    + apply list_lookup_singleton_Some in H1 as [_ <-]. simpl in E.
      by destruct (Hfresh _ _ H2).
    + apply list_lookup_singleton_Some in H1 as [? _].
      apply list_lookup_singleton_Some in H2 as [? _]. lia.
  - intros t r Htr.
    apply lookup_app_Some in Htr as [Htr | [_ Htr]].
    + destruct (Hsusp t r Htr) as (ws' & Hr' & Hf).
      exists ws'. split; [| done].
      destruct Hcase as [(_ & _ & _ & ->) | (_ & -> & _)]; [| done].
      rewrite list_lookup_insert_ne; [done |].
      intros E. by apply (Hfresh _ _ Htr).
    + apply list_lookup_singleton_Some in Htr as [_ E]. simplify_eq.
      destruct Hcase as [(_ & Hb & _ & ->) | (? & _)]; [| done].
      eexists. split; [by apply list_lookup_insert_eq |].
      simpl. unfold blocked in *. simpl. by rewrite Hb.
Qed.

Lemma awaited_wait_for_success_resume tid w w' :
  wait_for_success_resume tid w = Some w' → awaited w → awaited w'.
Proof.
  intros H [Hsc Hinj Hsusp].
  apply wait_for_success_resume_spec in H as (r & ws & Ht & Hr & Hf & ->).
  assert (∀ t tk', <[tid := mkTask r (Returned (success ws))]> (tasks w) !! t
                     = Some tk' →
            ∃ tk, tasks w !! t = Some tk ∧ wait_state tk = wait_state tk' ∧
                  (status tk' = Suspended → tk = tk')) as Hold.
  { intros t tk' Ht'.
    apply list_lookup_insert_Some in Ht' as [(? & ? & _) | [_ Ht']];
      simplify_eq; eauto. eexists. split; [done |]. by split. }
  split; simpl.
  - intros t tk' Ht'. destruct (Hold _ _ Ht') as (tk & Htk & <- & _).
    by eapply Hsc.
  - intros t1 t2 tk1 tk2 H1 H2 E.
    destruct (Hold _ _ H1) as (tk1' & ? & E1 & _).
    destruct (Hold _ _ H2) as (tk2' & ? & E2 & _).
    eapply Hinj; [done | done | congruence].
  - intros t r' Ht'. destruct (Hold _ _ Ht') as (tk & Htk & _ & E).
    rewrite (E eq_refl) in Htk. by eapply Hsusp.
Qed.

Lemma awaited_step o w w' : step o w = Some w' → wf w → awaited w → awaited w'.
Proof.
  destruct o; simpl; intros H Hwf Haw.
  - unfold SuccessCondition_lock in H.
    destruct (ensure_wait_state w) as [r w1] eqn:E.
    destruct (ensure_wait_state_fields w) as (_ & _ & Es).
    pose proof (awaited_ensure_wait_state w Hwf Haw) as Haw1.
    rewrite E in Es, Haw1. simpl in *.
    by eapply awaited_Lock_new.
  - by eapply awaited_Lock_release.
  - by eapply awaited_Lock_move_assign.
  - unfold Lock_move_construct in H.
    eapply awaited_Lock_move_assign; [done |]. by apply awaited_set_locks.
  - by eapply awaited_Lock_release.
  - by eapply awaited_wait_for_success.
  - by eapply awaited_wait_for_success_resume.
Qed.

Lemma reach_inv ops :
  ∀ w w', run ops w = Some w' → wf w → awaited w → wf w' ∧ awaited w'.
Proof.
  induction ops as [| o ops IH]; simpl; intros w w' H Hwf Haw.
  - by simplify_eq.
  - destruct (step o w) as [w1 |] eqn:E; [| done].
    eapply IH; [done | by eapply wf_step | by eapply awaited_step].
Qed.

(** X6: each race is awaited by at most one call of [wait_for_success].  The
    call moves the coordinator's pointer out, so in every reachable state
    two calls that hold the same wait state are the same call. *)
Theorem one_wait_per_race ops w t1 t2 tk1 tk2 :
  run ops init = Some w →
  tasks w !! t1 = Some tk1 → tasks w !! t2 = Some tk2 →
  wait_state tk1 = wait_state tk2 → t1 = t2.
Proof.
  intros Hrun.
  destruct (reach_inv _ _ _ Hrun wf_init awaited_init) as [_ Haw].
  by apply aw_inj.
Qed.

Lemma one_wait_per_race_witness :
  run [OpWait; OpWait] init = Some idle2 ∧
  tasks idle2 !! 1 = Some (mkTask 1 (Returned false)) ∧
  1 = 1.
Proof.
  split; [reflexivity |]. split; [reflexivity |].
  apply (one_wait_per_race [OpWait; OpWait] idle2 1 1
           (mkTask 1 (Returned false)) (mkTask 1 (Returned false)));
    reflexivity.
Defined.

(** X7: a suspended call of [wait_for_success] can be resumed exactly when
    its race is no longer blocked: it is not woken while a lock of the race
    is outstanding and no success has been reported, and it has been woken
    as soon as a release has made [blocked()] false. *)
Theorem suspended_resumes_iff_unblocked ops w t r :
  run ops init = Some w →
  tasks w !! t = Some (mkTask r Suspended) →
  ∃ ws, heap w !! r = Some ws ∧
        (is_Some (step (OpResume t) w) ↔ blocked ws = false).
Proof.
  intros Hrun Ht.
  destruct (reach_inv _ _ _ Hrun wf_init awaited_init) as [_ Haw].
  destruct (aw_susp _ Haw _ _ Ht) as (ws & Hr & Hf).
  exists ws. split; [done |]. simpl. unfold wait_for_success_resume.
  rewrite Ht, Hr, Hf.
  destruct (blocked ws); simpl; split; intros H;
    first [done | by destruct H].
Qed.

Lemma suspended_resumes_iff_unblocked_witness :
  run [OpLock; OpLock; OpWait; OpRelease 0 false] init = Some race2_half ∧
  tasks race2_half !! 0 = Some (mkTask 0 Suspended) ∧
  ∃ ws, heap race2_half !! 0 = Some ws ∧
        (is_Some (step (OpResume 0) race2_half) ↔ blocked ws = false).
Proof.
  split; [reflexivity |]. split; [reflexivity |].
  apply (suspended_resumes_iff_unblocked
           [OpLock; OpLock; OpWait; OpRelease 0 false] race2_half 0 0);
    reflexivity.
Defined.

(** An operation does not raise the counter of a race that the coordinator
    does not point to. *)
Lemma step_remaining_le o w w' r ws :
  step o w = Some w' → heap w !! r = Some ws → sc_wait_state w ≠ Some r →
  ∃ ws', heap w' !! r = Some ws' ∧
         (remaining_locks ws' <= remaining_locks ws)%Z.
Proof.
  intros Hstep Hr Hsc. pose proof (lookup_lt_Some _ _ _ Hr) as Hlt.
  assert (∀ l b w1, Lock_release l b w = Some w1 →
            ∃ ws', heap w1 !! r = Some ws' ∧
                   (remaining_locks ws' <= remaining_locks ws)%Z) as Hrel.
  { intros l b w1 H.
    destruct (locks w !! l) as [o' |] eqn:Hl;
      [| unfold Lock_release in H; by rewrite Hl in H].
    destruct (Lock_release_remaining _ _ _ _ _ _ _ H Hl Hr) as (ws' & ? & ?).
    exists ws'. split; [done | lia]. }
  destruct o; simpl in Hstep; eauto.
  - unfold SuccessCondition_lock, ensure_wait_state, Lock_new in Hstep.
    destruct (sc_wait_state w) as [r0 |] eqn:Hsc0; simpl in *.
    + destruct (heap w !! r0) as [ws0 |] eqn:Hr0; simplify_eq. simpl.
      exists ws. split; [| lia].
      rewrite list_lookup_insert_ne; [done | congruence].
    + rewrite lookup_app_r, Nat.sub_diag in Hstep by lia. simpl in Hstep.
      simplify_eq. simpl. exists ws. split; [| lia].
      rewrite list_lookup_insert_ne by lia. by apply lookup_app_l_Some.
  - apply Lock_move_assign_spec in Hstep as (w1 & o' & H & _ & E).
    subst w'. simpl. eauto.
  - unfold Lock_move_construct in Hstep.
    apply Lock_move_assign_spec in Hstep as (w1 & o' & H & _ & E).
    subst w'. simpl.
    rewrite Lock_release_null in H; [simplify_eq |]; simpl.
    + exists ws. split; [done | lia].
    + rewrite lookup_app_r by lia. by rewrite Nat.sub_diag.
  - apply wait_for_success_spec in Hstep as (ws0 & st & Hr0 & _ & _ & _ & Hc).
    simpl in *.
    assert (heap (ensure_wait_state w).2 !! r = Some ws) as Hr'.
    { destruct (ensure_wait_state_spec w) as [[_ E] | (_ & _ & E)];
        rewrite E; [done |].
      simpl. by apply lookup_app_l_Some. }
    pose proof (lookup_lt_Some _ _ _ Hr') as Hlt'.
    destruct Hc as [(_ & _ & _ & E) | (_ & E & _)]; rewrite E;
      [| exists ws; split; [done | lia]].
    destruct (decide ((ensure_wait_state w).1 = r)) as [E1 | Hne].
    + rewrite E1 in *. simplify_eq. eexists.
      split; [by apply list_lookup_insert_eq | simpl; lia].
    + exists ws. rewrite list_lookup_insert_ne by done. split; [done | lia].
  - apply wait_for_success_resume_spec in Hstep as (? & ? & _ & _ & _ & E).
    subst w'. exists ws. split; [done | lia].
Qed.

(** A call keeps its index and its wait state. *)
Lemma step_task_persist o w w' t tk :
  step o w = Some w' → tasks w !! t = Some tk →
  ∃ tk', tasks w' !! t = Some tk' ∧ wait_state tk' = wait_state tk.
Proof.
  intros Hstep Ht. pose proof (lock_op_tasks _ _ _ Hstep) as Hlk.
  destruct o; try (rewrite Hlk; by eauto); simpl in Hstep.
  - apply wait_for_success_spec in Hstep as (ws & st & _ & E & _).
    simpl in E. rewrite E. exists tk. split; [| done].
    by apply lookup_app_l_Some.
  - apply wait_for_success_resume_spec in Hstep as (r & ws & Htid & _ & _ & E).
    subst w'. simpl.
    destruct (decide (tid = t)) as [E | Hne].
    + subst tid. simplify_eq.
      exists (mkTask r (Returned (success ws))). split; [| done].
      apply list_lookup_insert_eq. by eapply lookup_lt_Some.
    + exists tk. by rewrite list_lookup_insert_ne.
Qed.

Lemma run_awaited_remaining ops :
  ∀ w w' t tk ws,
    wf w → awaited w → tasks w !! t = Some tk →
    heap w !! wait_state tk = Some ws → run ops w = Some w' →
    ∃ ws', heap w' !! wait_state tk = Some ws' ∧
           (remaining_locks ws' <= remaining_locks ws)%Z.
Proof.
  induction ops as [| o ops IH]; simpl; intros w w' t tk ws Hwf Haw Ht Hr H.
  - simplify_eq. exists ws. split; [done | lia].
  - destruct (step o w) as [w1 |] eqn:E; [| done].
    destruct (step_remaining_le _ _ _ _ _ E Hr (aw_sc _ Haw _ _ Ht))
      as (ws1 & Hr1 & Hle1).
    destruct (step_task_persist _ _ _ _ _ E Ht) as (tk1 & Ht1 & Ew).
    rewrite <- Ew in Hr1.
    destruct (IH w1 w' t tk1 ws1 (wf_step _ _ _ E Hwf)
                (awaited_step _ _ _ E Hwf Haw) Ht1 Hr1 H)
      as (ws' & Hr' & Hle').
    rewrite Ew in Hr'. exists ws'. split; [done | lia].
Qed.

(** X8: once [wait_for_success] has been called on a race, no lock can join
    it any more: from then on its [remaining_locks] never increases, and
    once [blocked()] is false on it, it stays false.  (A later [lock()]
    starts another race.) *)
Theorem awaited_race_only_shrinks ops0 w t tk ws ops w' :
  run ops0 init = Some w →
  tasks w !! t = Some tk → heap w !! wait_state tk = Some ws →
  run ops w = Some w' →
  ∃ ws', heap w' !! wait_state tk = Some ws' ∧
         (remaining_locks ws' <= remaining_locks ws)%Z ∧
         (blocked ws = false → blocked ws' = false).
Proof.
  intros Hrun0 Ht Hr Hrun.
  destruct (reach_inv _ _ _ Hrun0 wf_init awaited_init) as [Hwf Haw].
  destruct (run_awaited_remaining _ _ _ _ _ _ Hwf Haw Ht Hr Hrun)
    as (ws' & Hr' & Hle).
  exists ws'. split; [done |]. split; [done |].
  destruct (run_heap_le _ _ _ Hrun _ _ Hr) as (ws2 & Hr2 & [Hs _]).
  simplify_eq. unfold blocked. intros Hb.
  apply andb_false_iff in Hb as [Hb | Hb].
  - apply Z.ltb_ge in Hb. apply andb_false_iff. left. apply Z.ltb_ge. lia.
  - apply negb_false_iff in Hb. rewrite (Hs Hb). apply andb_false_r.
Qed.

Lemma awaited_race_only_shrinks_witness :
  run [OpLock; OpLock; OpWait; OpRelease 0 false] init = Some race2_half ∧
  tasks race2_half !! 0 = Some (mkTask 0 Suspended) ∧
  heap race2_half !! 0 =
    Some (mkWaitState (ConditionVariable.mk false [0]) 1 false) ∧
  run [OpLock; OpRelease 1 false] race2_half =
    Some (default init (run [OpLock; OpRelease 1 false] race2_half)) ∧
  ∃ ws', heap (default init (run [OpLock; OpRelease 1 false] race2_half))
           !! 0 = Some ws' ∧
         (remaining_locks ws' <= 1)%Z ∧
         (blocked (mkWaitState (ConditionVariable.mk false [0]) 1 false)
            = false → blocked ws' = false).
Proof.
  split; [reflexivity |]. split; [reflexivity |]. split; [reflexivity |].
  split; [reflexivity |].
  apply (awaited_race_only_shrinks
           [OpLock; OpLock; OpWait; OpRelease 0 false] race2_half 0
           (mkTask 0 Suspended)
           (mkWaitState (ConditionVariable.mk false [0]) 1 false)
           [OpLock; OpRelease 1 false]
           (default init (run [OpLock; OpRelease 1 false] race2_half)));
    reflexivity.
Defined.

(** ** Acquiring locks in a row *)

Lemma run_app ops1 ops2 w :
  run (ops1 ++ ops2) w =
    match run ops1 w with Some w1 => run ops2 w1 | None => None end.
Proof.
  revert w. induction ops1 as [| o ops1 IH]; intros w; simpl; [done |].
  by destruct (step o w).
Qed.

Lemma step_lock_row k :
  step OpLock
    (mkWorld [mkWaitState ConditionVariable.create (Z.of_nat k) false]
             (Some 0) (replicate k (Some 0)) []) =
  Some (mkWorld [mkWaitState ConditionVariable.create (Z.of_nat (S k)) false]
                (Some 0) (replicate (S k) (Some 0)) []).
Proof.
  rewrite replicate_S_end, Nat2Z.inj_succ. reflexivity.
Qed.

Lemma run_locks n :
  ∀ k, run (replicate n OpLock)
         (mkWorld [mkWaitState ConditionVariable.create (Z.of_nat k) false]
                  (Some 0) (replicate k (Some 0)) []) =
       Some (mkWorld
               [mkWaitState ConditionVariable.create (Z.of_nat (k + n)) false]
               (Some 0) (replicate (k + n) (Some 0)) []).
Proof.
  induction n as [| n IH]; intros k.
  - by rewrite Nat.add_0_r.
  - replace (k + S n) with (S k + n) by lia. rewrite <- (IH (S k)).
    cbn [replicate run]. by rewrite step_lock_row.
Qed.

(** X9: [n + 1] calls of [lock()] on a fresh coordinator share one wait
    state, whose counter is then [n + 1]; [wait_for_success] called next
    finds the race blocked and suspends its caller, leaving the coordinator
    without a race. *)
Theorem locks_then_wait_suspends n :
  run (replicate (S n) OpLock ++ [OpWait]) init =
    Some (mkWorld
            [mkWaitState (ConditionVariable.mk false [0])
                         (Z.of_nat (S n)) false]
            None (replicate (S n) (Some 0)) [mkTask 0 Suspended]).
Proof.
  rewrite run_app. cbn [replicate run].
  assert (step OpLock init =
          Some (mkWorld
                  [mkWaitState ConditionVariable.create (Z.of_nat 1) false]
                  (Some 0) (replicate 1 (Some 0)) [])) as E by reflexivity.
  rewrite E, (run_locks n 1). cbn [run step Nat.add].
  unfold wait_for_success, ConditionVariable.wait, blocked.
  cbn -[Z.of_nat Z.ltb replicate].
  replace (0 <? Z.of_nat (S n))%Z with true
    by (symmetry; apply Z.ltb_lt; lia).
  reflexivity.
Qed.

(** ** What [blocked()] means *)

Lemma holders_pos r (ls : list (option nat)) :
  0 < holders r ls ↔ ∃ l, ls !! l = Some (Some r).
Proof.
  split.
  - induction ls as [| o ls IH]; simpl; [lia |]. intros H.
    destruct o as [r' |]; simpl in H.
    + destruct (Nat.eqb_spec r r') as [E | Hne].
      * subst r'. by exists 0.
      * destruct IH as [l Hl]; [lia |]. by exists (S l).
    + destruct IH as [l Hl]; [lia |]. by exists (S l).
  - intros [l Hl].
    destruct (holders r ls) eqn:E; [| lia].
    pose proof (holders_insert r ls l (Some r) None Hl) as H.
    simpl in H. rewrite Nat.eqb_refl in H. lia.
Qed.

(** X10: in every reachable state a race is blocked exactly when some lock
    object is still bound to it and no success has been recorded on it. *)
Theorem blocked_iff_outstanding ops w r ws :
  run ops init = Some w → heap w !! r = Some ws →
  blocked ws = true ↔
  (∃ l, locks w !! l = Some (Some r)) ∧ success ws = false.
Proof.
  intros Hrun Hr. pose proof (wf_run _ _ _ Hrun wf_init) as Hwf.
  unfold blocked. rewrite (wf_remaining _ Hwf _ _ Hr).
  rewrite andb_true_iff, negb_true_iff, Z.ltb_lt, <- holders_pos.
  split; intros [H1 H2]; split; try done; lia.
Qed.

Lemma blocked_iff_outstanding_witness :
  run [OpLock; OpLock; OpWait; OpRelease 0 false] init = Some race2_half ∧
  heap race2_half !! 0 =
    Some (mkWaitState (ConditionVariable.mk false [0]) 1 false) ∧
  (blocked (mkWaitState (ConditionVariable.mk false [0]) 1 false) = true ↔
   (∃ l, locks race2_half !! l = Some (Some 0)) ∧
   success (mkWaitState (ConditionVariable.mk false [0]) 1 false) = false).
Proof.
  split; [reflexivity |]. split; [reflexivity |].
  apply (blocked_iff_outstanding
           [OpLock; OpLock; OpWait; OpRelease 0 false] race2_half 0
           (mkWaitState (ConditionVariable.mk false [0]) 1 false));
    reflexivity.
Defined.
